(** * Encoding of Go structs into URL query parameters (package [query])

    A shallow embedding of [query/encode.go]: the entry point [Values],
    the recursive encoder [reflectValue], the scalar stringifier
    [valueString], the emptiness predicate [isEmptyValue] and the tag
    parser [parseTag], followed by the properties of the encoder.

    The package works by runtime reflection.  The parts of the Go
    standard library it relies on ([net/url], [reflect], [time], [fmt],
    [strconv], [strings]) are modelled in the modules below, as far as
    the package observes them.  Calls to [logit] only write to the log
    and are left out. *)

From Stdlib Require Import Ascii.
From stdpp Require Import base strings list gmap pretty.

Open Scope string_scope.
Open Scope list_scope.

Set Warnings "-register-all".

(** ** [net/url]: the output multi-map *)

Module url.

(** [type Values map[string][]string]. *)
Abbreviation Values := (gmap string (list string)).

(** [func (v Values) Add(key, value string)]:
    [v[key] = append(v[key], value)]. *)
Definition Add (key value : string) (v : Values) : Values :=
  <[key := v !!! key ++ [value]]> v.


End url.

(** ** [time]: timestamps *)

Module time.

(** [time.Time] is [struct { wall uint64; ext int64; loc *Location }];
    the three fields are unexported.  The package reads a timestamp
    only through the methods [IsZero], [Unix] and [Format(RFC3339)],
    and [fmt] prints it through [String]; their results are part of
    the model of a timestamp. *)
Record Time : Type := mkTime {
  wall : Z;
  ext : Z;
  IsZero : bool;
  Unix : Z;
  FormatRFC3339 : string;
  String : string
}.

End time.

(** ** [reflect]: kinds and values *)

Module reflect.

Inductive Kind : Type :=
| Invalid | Bool
| Int | Int8 | Int16 | Int32 | Int64
| Uint | Uint8 | Uint16 | Uint32 | Uint64 | Uintptr
| Float32 | Float64 | Complex64 | Complex128
| Array | Chan | Func | Interface | Map | Ptr | Slice | String | Struct
| UnsafePointer.

#[global] Instance Kind_eq_dec : EqDecision Kind.
Proof. solve_decision. Defined.

(** [func (k Kind) String() string]. *)
Definition KindString (k : Kind) : string :=
  match k with
  | Invalid => "invalid" | Bool => "bool"
  | Int => "int" | Int8 => "int8" | Int16 => "int16"
  | Int32 => "int32" | Int64 => "int64"
  | Uint => "uint" | Uint8 => "uint8" | Uint16 => "uint16"
  | Uint32 => "uint32" | Uint64 => "uint64" | Uintptr => "uintptr"
  | Float32 => "float32" | Float64 => "float64"
  | Complex64 => "complex64" | Complex128 => "complex128"
  | Array => "array" | Chan => "chan" | Func => "func"
  | Interface => "interface" | Map => "map" | Ptr => "ptr"
  | Slice => "slice" | String => "string" | Struct => "struct"
  | UnsafePointer => "unsafe.Pointer"
  end.

Inductive IntSize := I | I8 | I16 | I32 | I64.
Inductive UintSize := U | U8 | U16 | U32 | U64 | UPtr.
Inductive FloatSize := F32 | F64.
Inductive SeqKind := KSlice | KArray.
Inductive OtherKind := KComplex64 | KComplex128 | KChan | KFunc | KUnsafePointer.

End reflect.

(** ** The package's own types *)

Definition error := string.

(** [type Encoder interface { EncodeValues(key string, v *url.Values) error }].

    A field whose type implements [Encoder] carries the method bound to
    the receiver the package calls it on (the field's value, or a fresh
    zero value when the field is a nil pointer, lines 238-244).  The
    method receives the key and a pointer to the map being filled.  It
    is taken to write to that map in place (as [url.Values.Add] and
    [Set] do), not to make the pointer refer to another map: its effect
    is the map it leaves behind and the error it returns. *)
Definition Encoder := string -> url.Values -> url.Values * option error.

(** [reflect.StructField], with [Tag] holding [sf.Tag.Get("url")] and
    [Implements] the outcome of [sf.Type.Implements(encoderType)]. *)
Record StructField : Type := mkField {
  Name : string;
  PkgPath : string;
  Anonymous : bool;
  Tag : string;
  Implements : option Encoder
}.

(** A Go value as [reflect] presents it.  Floats, maps and the kinds the
    package never looks into carry what the package observes of them:
    the comparison with zero or the length, and the text [fmt.Sprint]
    prints. *)
Inductive Value : Type :=
| VBool (b : bool)
| VInt (sz : reflect.IntSize) (n : Z)
| VUint (sz : reflect.UintSize) (n : Z)
| VFloat (sz : reflect.FloatSize) (isZero : bool) (text : string)
| VString (s : string)
| VSeq (k : reflect.SeqKind) (elems : list Value)
| VMap (len : nat) (text : string)
| VPtr (p : option Value)
| VInterface (p : option Value)
| VStruct (fields : list (StructField * Value))
| VTime (t : time.Time)
| VOther (k : reflect.OtherKind) (text : string).

(** [func (v Value) Kind() Kind].  A [time.Time] is a struct. *)
Definition Kind (v : Value) : reflect.Kind :=
  match v with
  | VBool _ => reflect.Bool
  | VInt sz _ =>
      match sz with
      | reflect.I => reflect.Int | reflect.I8 => reflect.Int8
      | reflect.I16 => reflect.Int16 | reflect.I32 => reflect.Int32
      | reflect.I64 => reflect.Int64
      end
  | VUint sz _ =>
      match sz with
      | reflect.U => reflect.Uint | reflect.U8 => reflect.Uint8
      | reflect.U16 => reflect.Uint16 | reflect.U32 => reflect.Uint32
      | reflect.U64 => reflect.Uint64 | reflect.UPtr => reflect.Uintptr
      end
  | VFloat sz _ _ =>
      match sz with
      | reflect.F32 => reflect.Float32 | reflect.F64 => reflect.Float64
      end
  | VString _ => reflect.String
  | VSeq k _ =>
      match k with
      | reflect.KSlice => reflect.Slice | reflect.KArray => reflect.Array
      end
  | VMap _ _ => reflect.Map
  | VPtr _ => reflect.Ptr
  | VInterface _ => reflect.Interface
  | VStruct _ => reflect.Struct
  | VTime _ => reflect.Struct
  | VOther k _ =>
      match k with
      | reflect.KComplex64 => reflect.Complex64
      | reflect.KComplex128 => reflect.Complex128
      | reflect.KChan => reflect.Chan
      | reflect.KFunc => reflect.Func
      | reflect.KUnsafePointer => reflect.UnsafePointer
      end
  end.

(** [v.Type() == timeType]. *)
Definition isTimeType (v : Value) : bool :=
  match v with VTime _ => true | _ => false end.

(** The accessors of [reflect.Value] the package calls.  Go panics when
    one is applied to a value of the wrong kind; the package guards each
    call by the kind, and the model returns a default there. *)
Definition Len (v : Value) : nat :=
  match v with
  | VString s => String.length s
  | VSeq _ elems => length elems
  | VMap len _ => len
  | _ => 0
  end.

Definition IsNil (v : Value) : bool :=
  match v with
  | VPtr None | VInterface None => true
  | _ => false
  end.

Definition GetBool (v : Value) : bool :=
  match v with VBool b => b | _ => false end.

Definition GetInt (v : Value) : Z :=
  match v with VInt _ n => n | _ => 0%Z end.

Definition GetUint (v : Value) : Z :=
  match v with VUint _ n => n | _ => 0%Z end.

(** [v.Float() == 0]. *)
Definition FloatIsZero (v : Value) : bool :=
  match v with VFloat _ z _ => z | _ => false end.

Definition GetTime (v : Value) : time.Time :=
  match v with VTime t => t | _ => time.mkTime 0 0 true 0 "" "" end.

(** The fields of [time.Time], as [typ.Field(i)] describes them; all are
    unexported, so their values are never read by this package. *)
Definition timeFields (t : time.Time) : list (StructField * Value) :=
  [ (mkField "wall" "time" false "" None, VUint reflect.U64 (time.wall t));
    (mkField "ext" "time" false "" None, VInt reflect.I64 (time.ext t));
    (mkField "loc" "time" false "" None, VPtr None) ].

(** The fields of a struct value, in declaration order:
    [typ.Field(i)] with [val.Field(i)] for [i < typ.NumField()]. *)
Definition Fields (val : Value) : list (StructField * Value) :=
  match val with
  | VStruct fields => fields
  | VTime t => timeFields t
  | _ => []
  end.

(** ** [fmt] and [strconv] *)

(** [fmt.Sprint] of one operand, for values of types without [String],
    [Error] or [Format] methods of their own.  A pointer to a composite
    is printed as [&] and the composite; [fmt] prints other pointers by
    their address, which the model does not hold ([valueString] resolves
    pointers before it prints). *)
Fixpoint fmtSprint (v : Value) : string :=
  match v with
  | VBool b => if b then "true" else "false"
  | VInt _ n => pretty n
  | VUint _ n => pretty n
  | VFloat _ _ text => text
  | VString s => s
  | VSeq _ elems => "[" +:+ String.concat " " (map fmtSprint elems) +:+ "]"
  | VMap _ text => text
  | VPtr None => "<nil>"
  | VPtr (Some e) => "&" +:+ fmtSprint e
  | VInterface None => "<nil>"
  | VInterface (Some e) => fmtSprint e
  | VStruct fields =>
      "{" +:+ String.concat " " (map (fun f => fmtSprint (snd f)) fields) +:+ "}"
  | VTime t => time.String t
  | VOther _ text => text
  end.

(** [strconv.FormatInt(i, 10)]. *)
Definition FormatInt (i : Z) : string := pretty i.

(** ** Tag parsing (lines 371-390) *)

(** [strings.Split(s, sep)] for a one-byte separator. *)
Fixpoint Split (s : string) (sep : ascii) : list string :=
  match s with
  | EmptyString => [""]
  | String c rest =>
      if decide (c = sep) then "" :: Split rest sep
      else match Split rest sep with
           | h :: t => String c h :: t
           | [] => [String c ""]
           end
  end.

Definition tagOptions := list string.

(** [parseTag]: [s := strings.Split(tag, ","); return s[0], s[1:]]. *)
Definition parseTag (tag : string) : string * tagOptions :=
  match Split tag ","%char with
  | h :: t => (h, t)
  | [] => ("", [])
  end.

(** [func (o tagOptions) Contains(option string) bool]. *)
Fixpoint Contains (o : tagOptions) (option : string) : bool :=
  match o with
  | [] => false
  | s :: rest => if decide (s = option) then true else Contains rest option
  end.

(** ** The scalar stringifier (lines 319-344) *)

Fixpoint valueString (v : Value) (opts : tagOptions) : string :=
  match v with
  | VPtr None => ""
  | VPtr (Some e) => valueString e opts
  | _ =>
      if bool_decide (Kind v = reflect.Bool) && Contains opts "int" then
        if GetBool v then "1" else "0"
      else if isTimeType v then
        let t := GetTime v in
        if Contains opts "unix" then FormatInt (time.Unix t)
        else time.FormatRFC3339 t
      else fmtSprint v
  end.

(** ** The emptiness predicate (lines 346-369) *)

Definition isEmptyValue (v : Value) : bool :=
  match Kind v with
  | reflect.Array | reflect.Map | reflect.Slice | reflect.String =>
      bool_decide (Len v = 0)
  | reflect.Bool => negb (GetBool v)
  | reflect.Int | reflect.Int8 | reflect.Int16 | reflect.Int32
  | reflect.Int64 =>
      bool_decide (GetInt v = 0%Z)
  | reflect.Uint | reflect.Uint8 | reflect.Uint16 | reflect.Uint32
  | reflect.Uint64 | reflect.Uintptr =>
      bool_decide (GetUint v = 0%Z)
  | reflect.Float32 | reflect.Float64 => FloatIsZero v
  | reflect.Interface | reflect.Ptr => IsNil v
  | _ => if isTimeType v then time.IsZero (GetTime v) else false
  end.

(** ** The recursive encoder (lines 162-317) *)

(** What one iteration of the loop over the fields leaves behind: the
    loop goes on with the map and the deferred embedded structs, or the
    function returns an error (the map keeps what was written). *)
Inductive Flow : Type :=
| Continue (values : url.Values) (embedded : list Value)
| Return (values : url.Values) (err : error).

(** Lines 206-227: an empty tag name falls back to the field name, and a
    non-empty scope wraps the name in brackets. *)
Definition scopedName (scope name : string) : string :=
  if decide (scope = "") then name else scope +:+ "[" +:+ name +:+ "]".

Definition fieldName (scope : string) (sf : StructField) (name : string) : string :=
  scopedName scope (if decide (name = "") then Name sf else name).

(** Lines 255-264: the delimiter ([0] for none) and the key. *)
Definition delimiter (opts : tagOptions) (name : string) : ascii * string :=
  if Contains opts "comma" then (","%char, name)
  else if Contains opts "space" then (" "%char, name)
  else if Contains opts "semicolon" then (";"%char, name)
  else if Contains opts "brackets" then (zero, name +:+ "[]")
  else (zero, name).

(** Lines 267-276: the elements written to the buffer [s], separated by
    [del]. *)
Fixpoint joinLoop (del : ascii) (opts : tagOptions) (elems : list Value)
    (first : bool) (s : string) : string :=
  match elems with
  | [] => s
  | e :: rest =>
      let s := if first then s else s +:+ String del "" in
      joinLoop del opts rest false (s +:+ valueString e opts)
  end.

(** Lines 279-285: one entry per element, from index [i] on. *)
Fixpoint addLoop (name : string) (opts : tagOptions) (elems : list Value)
    (i : nat) (values : url.Values) : url.Values :=
  match elems with
  | [] => values
  | e :: rest =>
      let k := if Contains opts "numbered" then name +:+ pretty i else name in
      addLoop name opts rest (S i) (url.Add k (valueString e opts) values)
  end.

Definition seqElems (v : Value) : list Value :=
  match v with VSeq _ elems => elems | _ => [] end.

(** Lines 295-300: follow pointers until a nil pointer or a value that
    is not a pointer. *)
Fixpoint derefAll (sv : Value) : Value :=
  match sv with
  | VPtr (Some e) => derefAll e
  | _ => sv
  end.

Section Body.

(** The recursive calls of [reflectValue]. *)
Variable self : url.Values -> Value -> string -> url.Values * option error.

(** Lines 254-307: the encoding of a field that no custom encoder
    claims.  Every branch adds to the map and ends in [continue]. *)
Definition encodeDefault (name : string) (opts : tagOptions) (sv : Value)
    (values : url.Values) : url.Values :=
  if bool_decide (Kind sv = reflect.Slice)
     || bool_decide (Kind sv = reflect.Array) then
    let '(del, name) := delimiter opts name in
    if decide (del ≠ zero) then
      url.Add name (joinLoop del opts (seqElems sv) true "") values
    else
      addLoop name opts (seqElems sv) 0 values
  else if isTimeType sv then
    url.Add name (valueString sv opts) values
  else
    let sv := derefAll sv in
    if bool_decide (Kind sv = reflect.Struct) then
      (* line 303: the error of the nested call is not looked at *)
      fst (self values sv name)
    else
      url.Add name (valueString sv opts) values.

(** The body of the loop over the fields, lines 176-307. *)
Definition reflectField (scope : string) (values : url.Values)
    (embedded : list Value) (sf : StructField) (sv : Value) : Flow :=
  if bool_decide (PkgPath sf ≠ "") && negb (Anonymous sf) then
    Continue values embedded
  else
  let tag := Tag sf in
  if decide (tag = "-") then Continue values embedded else
  let '(name, opts) := parseTag tag in
  if bool_decide (name = "") && Anonymous sf
     && bool_decide (Kind sv = reflect.Struct) then
    Continue values (embedded ++ [sv])
  else
  let name := fieldName scope sf name in
  if Contains opts "omitempty" && isEmptyValue sv then
    Continue values embedded
  else
  match Implements sf with
  | Some m =>
      match m name values with
      | (values, Some err) => Return values err
      | (values, None) => Continue values embedded
      end
  | None => Continue (encodeDefault name opts sv values) embedded
  end.

(** The loop over the fields, lines 175-308. *)
Fixpoint fieldsLoop (scope : string) (fields : list (StructField * Value))
    (values : url.Values) (embedded : list Value) : Flow :=
  match fields with
  | [] => Continue values embedded
  | (sf, sv) :: rest =>
      match reflectField scope values embedded sf sv with
      | Continue values embedded => fieldsLoop scope rest values embedded
      | Return values err => Return values err
      end
  end.

(** The loop over the deferred embedded structs, lines 310-314. *)
Fixpoint embeddedLoop (scope : string) (embedded : list Value)
    (values : url.Values) : url.Values * option error :=
  match embedded with
  | [] => (values, None)
  | f :: rest =>
      match self values f scope with
      | (values, Some err) => (values, Some err)
      | (values, None) => embeddedLoop scope rest values
      end
  end.

Definition reflectValue_body (values : url.Values) (val : Value)
    (scope : string) : url.Values * option error :=
  match fieldsLoop scope (Fields val) values [] with
  | Return values err => (values, Some err)
  | Continue values embedded => embeddedLoop scope embedded values
  end.

End Body.

(** Nesting depth of a value.  Go values built without pointer cycles
    are finite trees; the recursion of [reflectValue] descends by at
    least one level at each call. *)
Fixpoint depth (v : Value) : nat :=
  match v with
  | VSeq _ elems => S (foldr (fun e n => depth e `max` n) 0 elems)
  | VPtr (Some e) => S (depth e)
  | VInterface (Some e) => S (depth e)
  | VStruct fields => S (foldr (fun f n => depth (snd f) `max` n) 0 fields)
  | VTime _ => 1
  | _ => 0
  end.

(** [reflectValue] unrolled [n] times. *)
Fixpoint reflectValue_upto (n : nat) :
    url.Values -> Value -> string -> url.Values * option error :=
  match n with
  | 0 => fun values _ _ => (values, None)
  | S n => reflectValue_body (reflectValue_upto n)
  end.

(** [func reflectValue(values url.Values, val reflect.Value, scope string) error];
    the map is returned with the error.  The unrolling is as deep as the
    value; [reflectValue_unfold] below shows that this is the recursive
    function of the source. *)
Definition reflectValue (values : url.Values) (val : Value) (scope : string) :
    url.Values * option error :=
  reflectValue_upto (S (depth val)) values val scope.

(** ** The entry point (lines 120-160) *)

(** Lines 131-139: [None] when a nil pointer is met. *)
Fixpoint resolve (val : Value) : option Value :=
  match val with
  | VPtr None => None
  | VPtr (Some e) => resolve e
  | _ => Some val
  end.

(** [func Values(v interface{}) (url.Values, error)].  The argument is
    [None] for the nil interface; the result map is [None] for nil.  On
    the nil interface [reflect.ValueOf] has kind [Invalid], the loop of
    lines 131-139 does not run, and line 142 returns the empty map. *)
Definition Values (v : option Value) : option url.Values * option error :=
  let values : url.Values := ∅ in
  match v with
  | None => (Some values, None)
  | Some val =>
      match resolve val with
      | None => (Some values, None)
      | Some val =>
          if bool_decide (Kind val ≠ reflect.Struct) then
            (None,
             Some ("query: Values() expects struct input. Got "
                   +:+ reflect.KindString (Kind val)))
          else
            let '(values, err) := reflectValue values val "" in
            (Some values, err)
      end
  end.

(** ** Notions used in the statements *)

(** Two candidates for the recursive calls agree on all values of depth
    below [n]. *)
Definition agree_below (n : nat)
    (self1 self2 : url.Values -> Value -> string -> url.Values * option error) : Prop :=
  forall values v scope, depth v < n -> self1 values v scope = self2 values v scope.

(** A chain of pointers with a nil pointer somewhere in it. *)
Inductive nilChain : Value -> Prop :=
| nilChain_nil : nilChain (VPtr None)
| nilChain_ptr e : nilChain e -> nilChain (VPtr (Some e)).

(** [resolvesTo val w]: following the non-nil pointers of [val] ends in
    [w], which is not a pointer. *)
Inductive resolvesTo : Value -> Value -> Prop :=
| resolvesTo_here w : Kind w ≠ reflect.Ptr -> resolvesTo w w
| resolvesTo_ptr e w : resolvesTo e w -> resolvesTo (VPtr (Some e)) w.

(** The field passes steps 1-7 of the loop body and is handed to the
    default rules under the tag name [name] with options [opts]: it is
    exported or embedded, its tag is not [-], it is not an embedded
    struct deferred to the second pass, it is not omitted as empty, and
    its type has no custom encoder. *)
Definition encoded (sf : StructField) (sv : Value) (name : string)
    (opts : tagOptions) : Prop :=
  (PkgPath sf = "" \/ Anonymous sf = true)
  /\ Tag sf ≠ "-"
  /\ parseTag (Tag sf) = (name, opts)
  /\ ~ (name = "" /\ Anonymous sf = true /\ Kind sv = reflect.Struct)
  /\ ~ (Contains opts "omitempty" = true /\ isEmptyValue sv = true)
  /\ Implements sf = None.

(** The kind is [Slice] or [Array]. *)
Definition isSeqKind (sv : Value) : bool :=
  bool_decide (Kind sv = reflect.Slice) || bool_decide (Kind sv = reflect.Array).

(** A field that leaves the state of the loop as it was, but for a
    timestamp deferred to the second pass. *)
Definition inert (scope : string) (sf : StructField) (sv : Value) : Prop :=
  forall values embedded,
    reflectField reflectValue scope values embedded sf sv
    = Continue values embedded
    \/ exists t, sv = VTime t
       /\ reflectField reflectValue scope values embedded sf sv
          = Continue values (embedded ++ [VTime t]).

(** The emptiness rules in the words of the specification: [false] for
    booleans, zero for the integer and floating-point kinds, length zero
    for strings, sequences and maps, nil for pointers and interfaces,
    [IsZero] for timestamps, and never empty for any other kind. *)
Definition emptyPerKind (v : Value) : bool :=
  match v with
  | VBool b => negb b
  | VInt _ n => bool_decide (n = 0%Z)
  | VUint _ n => bool_decide (n = 0%Z)
  | VFloat _ isZero _ => isZero
  | VString s => bool_decide (s = "")
  | VSeq _ elems => match elems with [] => true | _ => false end
  | VMap len _ => bool_decide (len = 0)
  | VPtr p => match p with None => true | Some _ => false end
  | VInterface p => match p with None => true | Some _ => false end
  | VTime t => time.IsZero t
  | VStruct _ => false
  | VOther _ _ => false
  end.

(** Two option lists that differ at most in [omitempty]. *)
Definition optsAgree (opts opts' : tagOptions) : Prop :=
  forall o, o ≠ "omitempty" -> Contains opts' o = Contains opts o.

(** [sf'] is the field [sf] declared without the option [omitempty]. *)
Definition withoutOmitempty (sf sf' : StructField) : Prop :=
  Name sf' = Name sf
  /\ PkgPath sf' = PkgPath sf
  /\ Anonymous sf' = Anonymous sf
  /\ Implements sf' = Implements sf
  /\ Tag sf' ≠ "-"
  /\ fst (parseTag (Tag sf')) = fst (parseTag (Tag sf))
  /\ Contains (snd (parseTag (Tag sf'))) "omitempty" = false
  /\ optsAgree (snd (parseTag (Tag sf))) (snd (parseTag (Tag sf'))).



(** [k] starts with [p]. *)
Definition has_prefix (p k : string) : Prop := exists r, k = p +:+ r.

(** A custom encoder that writes only under keys that extend the key it
    is given. *)
Definition scoped (m : Encoder) : Prop :=
  forall key (values : url.Values) k,
    ~ has_prefix key k -> (m key values).1 !! k = values !! k.

(** Every custom encoder of a field inside the value, at any depth of
    nested structs, is [scoped]. *)
Inductive encodersScoped : Value -> Prop :=
| encodersScoped_struct fields :
    Forall (fun f => (forall m, Implements f.1 = Some m -> scoped m)
                     /\ encodersScoped f.2) fields ->
    encodersScoped (VStruct fields)
| encodersScoped_ptr e : encodersScoped e -> encodersScoped (VPtr (Some e))
| encodersScoped_other v :
    match v with VStruct _ | VPtr (Some _) => False | _ => True end ->
    encodersScoped v.

(** [self], run on [v] under a non-empty scope, leaves alone every key
    that does not start with the scope followed by a bracket. *)
Definition frames
    (self : url.Values -> Value -> string -> url.Values * option error)
    (v : Value) : Prop :=
  forall (values : url.Values) scope k,
    scope ≠ "" -> ~ has_prefix (scope +:+ "[") k ->
    (self values v scope).1 !! k = values !! k.

(** A custom encoder that fails without writing anything. *)
Definition failingEncoder : Encoder :=
  fun _ values => (values, Some "encode failed").

(** ** Notions used in the further properties *)

(** Number of occurrences of the byte [c] in [s]. *)
Fixpoint countByte (c : ascii) (s : string) : nat :=
  match s with
  | EmptyString => 0
  | String a rest => (if decide (a = c) then 1 else 0) + countByte c rest
  end.

(** The options the package looks for. *)
Definition recognized : list string :=
  ["omitempty"; "int"; "unix"; "comma"; "space"; "semicolon"; "brackets";
   "numbered"].

(** Two option lists with the same recognized options. *)
Definition sameOptions (opts opts' : tagOptions) : Prop :=
  Forall (fun o => Contains opts' o = Contains opts o) recognized.

(** [sv], under the field description [sf], is an embedded struct that
    the loop over the fields defers to the second pass (lines 207-218). *)
Definition deferredField (sf : StructField) (sv : Value) : Prop :=
  Anonymous sf = true /\ Tag sf ≠ "-" /\ fst (parseTag (Tag sf)) = ""
  /\ Kind sv = reflect.Struct.

Definition noDeferred (fields : list (StructField * Value)) : Prop :=
  Forall (fun f => ~ deferredField f.1 f.2) fields.

(** Every custom encoder of a field inside the value, at any depth of
    nested structs, satisfies [P]. *)
Inductive encodersAll (P : Encoder -> Prop) : Value -> Prop :=
| encodersAll_struct fields :
    Forall (fun f => (forall m, Implements f.1 = Some m -> P m)
                     /\ encodersAll P f.2) fields ->
    encodersAll P (VStruct fields)
| encodersAll_ptr e : encodersAll P e -> encodersAll P (VPtr (Some e))
| encodersAll_other v :
    match v with VStruct _ | VPtr (Some _) => False | _ => True end ->
    encodersAll P v.


(** [v'] holds, under every key, the values of [v] followed by further
    ones. *)
Definition extends (v v' : url.Values) : Prop :=
  forall k, exists l, v' !!! k = v !!! k ++ l.

(** A custom encoder that only appends values. *)
Definition appending (m : Encoder) : Prop :=
  forall key values, extends values (m key values).1.

(** * Properties *)

(** ** [reflectValue] is the recursive function of the source *)

Lemma depth_derefAll : forall sv, depth (derefAll sv) <= depth sv.
Proof.
  fix IH 1. intros [ | | | | | | | [e|] | | | | ]; simpl; try lia.
  specialize (IH e). lia.
Qed.

Lemma reflectField_agree self1 self2 scope values embedded sf sv :
  agree_below (S (depth sv)) self1 self2 ->
  reflectField self1 scope values embedded sf sv
  = reflectField self2 scope values embedded sf sv.
Proof.
  intros H. unfold reflectField, encodeDefault.
  destruct (parseTag (Tag sf)) as [name opts].
  rewrite (H values (derefAll sv)); [done|].
  pose proof (depth_derefAll sv). lia.
Qed.

Lemma fieldsLoop_agree self1 self2 n scope fields :
  agree_below n self1 self2 ->
  Forall (fun f => depth (snd f) < n) fields ->
  forall values embedded,
  fieldsLoop self1 scope fields values embedded
  = fieldsLoop self2 scope fields values embedded.
Proof.
  intros Hag. induction 1 as [|[sf sv] rest Hsv _ IH]; intros values embedded; [done|].
  simpl in *. rewrite (reflectField_agree self1 self2).
  - destruct reflectField; auto.
  - intros vs v sc Hv. apply Hag. lia.
Qed.

(** The deferred structs are only ever appended to. *)
Lemma reflectField_embedded self scope values embedded sf sv :
  reflectField self scope values embedded sf sv
  = match reflectField self scope values [] sf sv with
    | Continue values' e => Continue values' (embedded ++ e)
    | Return values' err => Return values' err
    end.
Proof.
  unfold reflectField.
  destruct (parseTag (Tag sf)) as [name opts].
  repeat first
    [ rewrite app_nil_r | done
    | match goal with
      | |- context [if ?b then _ else _] => destruct b
      | |- context [match ?x with _ => _ end] => destruct x
      end ].
Qed.

Lemma fieldsLoop_embedded self scope fields : forall values embedded,
  fieldsLoop self scope fields values embedded
  = match fieldsLoop self scope fields values [] with
    | Continue values' e => Continue values' (embedded ++ e)
    | Return values' err => Return values' err
    end.
Proof.
  induction fields as [|[sf sv] rest IH]; intros values embedded; simpl.
  - by rewrite app_nil_r.
  - rewrite (reflectField_embedded _ _ _ embedded).
    destruct (reflectField self scope values [] sf sv) as [values' e|]; [|done].
    rewrite (IH values' (embedded ++ e)), (IH values' e).
    destruct (fieldsLoop self scope rest values' []); [|done].
    by rewrite app_assoc.
Qed.

(** A deferred struct is one of the fields. *)
Lemma reflectField_deferred self scope values sf sv values' e :
  reflectField self scope values [] sf sv = Continue values' e ->
  e = [] \/ e = [sv].
Proof.
  unfold reflectField.
  destruct (parseTag (Tag sf)) as [name opts].
  repeat first
    [ by (intros [= <- <-]; auto) | done
    | match goal with
      | |- context [if ?b then _ else _] => destruct b
      | |- context [match ?x with _ => _ end] => destruct x
      end ].
Qed.

Lemma fieldsLoop_deferred self scope fields : forall values values' e,
  fieldsLoop self scope fields values [] = Continue values' e ->
  e ⊆ fields.*2.
Proof.
  induction fields as [|[sf sv] rest IH]; intros values values' e; simpl.
  - by intros [= <- <-].
  - destruct (reflectField self scope values [] sf sv) as [v1 e1|] eqn:H1; [|done].
    rewrite fieldsLoop_embedded.
    destruct (fieldsLoop self scope rest v1 []) as [v2 e2|] eqn:H2; [|done].
    intros [= <- <-]. apply IH in H2.
    apply reflectField_deferred in H1 as [-> | ->]; simpl; intros x Hx.
    + right. by apply H2.
    + apply elem_of_cons in Hx as [-> | Hx]; [left | right; by apply H2].
Qed.

Lemma embeddedLoop_agree self1 self2 n scope embedded :
  agree_below n self1 self2 ->
  Forall (fun f => depth f < n) embedded ->
  forall values,
  embeddedLoop self1 scope embedded values
  = embeddedLoop self2 scope embedded values.
Proof.
  intros Hag. induction 1 as [|f rest Hf _ IH]; intros values; [done|].
  simpl. rewrite (Hag values f scope Hf).
  destruct (self2 values f scope) as [values' [err|]]; auto.
Qed.

Lemma depth_Fields val :
  Forall (fun f => depth (snd f) < depth val) (Fields val).
Proof.
  destruct val; simpl; try by constructor.
  - induction fields as [|f rest IH]; simpl; constructor; [lia|].
    eapply Forall_impl; [exact IH|]. simpl. intros; lia.
  - repeat constructor.
Qed.

Lemma reflectValue_body_agree self1 self2 values val scope :
  agree_below (depth val) self1 self2 ->
  reflectValue_body self1 values val scope
  = reflectValue_body self2 values val scope.
Proof.
  intros Hag. unfold reflectValue_body.
  pose proof (depth_Fields val) as Hd.
  rewrite (fieldsLoop_agree self1 self2 (depth val)) by done.
  destruct (fieldsLoop self2 scope (Fields val) values []) as [values' e|] eqn:Hloop; [|done].
  apply (embeddedLoop_agree _ _ (depth val)); [done|].
  apply fieldsLoop_deferred in Hloop.
  apply Forall_forall. intros f Hf. apply Hloop in Hf.
  apply list_elem_of_fmap in Hf as [[sf sv] [-> Hin]].
  by apply (proj1 (Forall_forall _ _) Hd) in Hin.
Qed.

Lemma reflectValue_upto_stable n : forall m values val scope,
  depth val < n -> depth val < m ->
  reflectValue_upto n values val scope = reflectValue_upto m values val scope.
Proof.
  induction n as [|n IH]; intros [|m] values val scope Hn Hm; try lia.
  simpl. apply reflectValue_body_agree.
  intros vs v sc Hv. apply IH; lia.
Qed.

(** The recursion equation of the source: [reflectValue] runs its body
    with itself for the recursive calls. *)
Lemma reflectValue_unfold values val scope :
  reflectValue values val scope
  = reflectValue_body reflectValue values val scope.
Proof.
  unfold reflectValue at 1. simpl. apply reflectValue_body_agree.
  intros vs v sc Hv. unfold reflectValue.
  apply reflectValue_upto_stable; lia.
Qed.

(** ** The multi-map *)

Lemma lookup_Add key value (v : url.Values) k :
  url.Add key value v !! k
  = if decide (key = k) then Some (v !!! key ++ [value]) else v !! k.
Proof. unfold url.Add. apply lookup_insert. Qed.

Lemma lookup_Add_ne key value (v : url.Values) k :
  key ≠ k -> url.Add key value v !! k = v !! k.
Proof. intros. unfold url.Add. by apply lookup_insert_ne. Qed.


(** ** The entry point *)

Lemma resolve_nilChain val : nilChain val -> resolve val = None.
Proof. induction 1; done. Qed.

Lemma resolve_resolvesTo val w : resolvesTo val w -> resolve val = Some w.
Proof.
  induction 1 as [w Hw|]; [|done].
  destruct w; done.
Qed.

(** C3: a nil input, or a chain of pointers with a nil pointer anywhere
    in it, is encoded as the empty multi-map, without an error. *)
Theorem C3_nil_input_empty (v : option Value) :
  v = None \/ (exists val, v = Some val /\ nilChain val) ->
  Values v = (Some ∅, None).
Proof.
  intros [-> | (val & -> & Hnil)]; [done|].
  unfold Values. by rewrite (resolve_nilChain val Hnil).
Qed.

Lemma C3_nil_input_empty_witness :
  nilChain (VPtr (Some (VPtr None)))
  /\ Values (Some (VPtr (Some (VPtr None)))) = (Some ∅, None).
Proof.
  assert (H : nilChain (VPtr (Some (VPtr None))))
    by (apply nilChain_ptr, nilChain_nil).
  split; [exact H|].
  apply (C3_nil_input_empty (Some (VPtr (Some (VPtr None))))).
  right. exists (VPtr (Some (VPtr None))). split; [reflexivity|exact H].
Defined.

(** C4: an input that is not nil and whose pointers lead to a value that
    is not a struct (a bare number, a string, a pointer to one) yields
    the nil map and an error whose message names the kind met. *)
Theorem C4_non_struct_input_error (val w : Value) :
  resolvesTo val w ->
  Kind w ≠ reflect.Struct ->
  Values (Some val)
  = (None,
     Some ("query: Values() expects struct input. Got "
           +:+ reflect.KindString (Kind w))).
Proof.
  intros Hres Hkind. unfold Values.
  rewrite (resolve_resolvesTo val w Hres).
  by rewrite bool_decide_true.
Qed.

Lemma C4_non_struct_input_error_witness :
  resolvesTo (VPtr (Some (VInt reflect.I 5))) (VInt reflect.I 5)
  /\ Kind (VInt reflect.I 5) ≠ reflect.Struct
  /\ Values (Some (VPtr (Some (VInt reflect.I 5))))
     = (None, Some "query: Values() expects struct input. Got int").
Proof.
  assert (H : resolvesTo (VPtr (Some (VInt reflect.I 5))) (VInt reflect.I 5))
    by (apply resolvesTo_ptr, resolvesTo_here; simpl; discriminate).
  assert (K : Kind (VInt reflect.I 5) ≠ reflect.Struct)
    by (simpl; discriminate).
  split; [exact H|]. split; [exact K|].
  apply (C4_non_struct_input_error _ _ H K).
Defined.

(** ** Fields handed to the default rules *)

Lemma reflectField_encoded self scope values embedded sf sv name opts :
  encoded sf sv name opts ->
  reflectField self scope values embedded sf sv
  = Continue (encodeDefault self (fieldName scope sf name) opts sv values)
      embedded.
Proof.
  intros (Hvis & Htag & Hparse & Hdefer & Homit & Henc).
  unfold reflectField. rewrite Hparse, Henc.
  destruct (bool_decide (PkgPath sf ≠ "") && negb (Anonymous sf)) eqn:E1.
  { apply andb_true_iff in E1 as [E1 E2%negb_true_iff].
    apply bool_decide_eq_true in E1. destruct Hvis; congruence. }
  destruct (decide (Tag sf = "-")); [done|].
  destruct (bool_decide (name = "") && Anonymous sf
            && bool_decide (Kind sv = reflect.Struct)) eqn:E2.
  { apply andb_true_iff in E2 as [E2 E3]. apply andb_true_iff in E2 as [E2 E4].
    apply bool_decide_eq_true in E2, E3. tauto. }
  destruct (Contains opts "omitempty" && isEmptyValue sv) eqn:E3; [|done].
  apply andb_true_iff in E3. tauto.
Qed.

(** ** The scalar stringifier *)

Lemma valueString_derefAll : forall sv opts,
  valueString (derefAll sv) opts = valueString sv opts.
Proof.
  fix IH 1. intros [ | | | | | | | [e|] | | | | ] opts; try reflexivity.
  simpl. apply IH.
Qed.





(** Discharges [encoded] on a concrete field. *)
Ltac prove_encoded :=
  unfold encoded; simpl;
  repeat match goal with
    | |- _ /\ _ => split
    | |- _ \/ _ => first [left; reflexivity | right; reflexivity]
    | |- _ ≠ _ => discriminate
    | |- ~ _ => let H := fresh in intros H; decompose [and] H; discriminate
    | |- _ = _ => reflexivity
    end.


(** ** Fields that contribute nothing *)

Lemma fieldsLoop_app self scope fs1 fs2 : forall values embedded,
  fieldsLoop self scope (fs1 ++ fs2) values embedded
  = match fieldsLoop self scope fs1 values embedded with
    | Continue values' embedded' => fieldsLoop self scope fs2 values' embedded'
    | Return values' err => Return values' err
    end.
Proof.
  induction fs1 as [|[sf sv] rest IH]; intros values embedded; simpl; [done|].
  destruct (reflectField self scope values embedded sf sv); auto.
Qed.

Lemma embeddedLoop_app self scope e1 e2 : forall values,
  embeddedLoop self scope (e1 ++ e2) values
  = match embeddedLoop self scope e1 values with
    | (values', None) => embeddedLoop self scope e2 values'
    | (values', Some err) => (values', Some err)
    end.
Proof.
  induction e1 as [|f rest IH]; intros values; simpl; [done|].
  destruct (self values f scope) as [values' [err|]]; auto.
Qed.

(** Recursing into a timestamp adds nothing: its fields are unexported. *)
Lemma reflectValue_Time values t scope :
  reflectValue values (VTime t) scope = (values, None).
Proof. reflexivity. Qed.

Lemma inert_removable scope sf sv fs1 fs2 values :
  inert scope sf sv ->
  reflectValue values (VStruct (fs1 ++ (sf, sv) :: fs2)) scope
  = reflectValue values (VStruct (fs1 ++ fs2)) scope.
Proof.
  intros Hinert. rewrite !reflectValue_unfold. unfold reflectValue_body. simpl.
  rewrite !fieldsLoop_app.
  destruct (fieldsLoop reflectValue scope fs1 values []) as [v1 e1|]; [|done].
  simpl. destruct (Hinert v1 e1) as [-> | (t & -> & ->)]; [done|].
  rewrite (fieldsLoop_embedded _ _ _ _ (e1 ++ [VTime t])).
  rewrite (fieldsLoop_embedded _ _ _ _ e1).
  destruct (fieldsLoop reflectValue scope fs2 v1 []) as [v2 e2|]; [|done].
  rewrite <- !app_assoc, !embeddedLoop_app.
  destruct (embeddedLoop reflectValue scope e1 v2) as [v3 [err|]]; [done|].
  change ([VTime t] ++ e2) with (VTime t :: e2).
  cbn [embeddedLoop]. by rewrite reflectValue_Time.
Qed.

Lemma Values_struct fields :
  Values (Some (VStruct fields))
  = (Some (fst (reflectValue ∅ (VStruct fields) "")),
     snd (reflectValue ∅ (VStruct fields) "")).
Proof.
  unfold Values. simpl. by destruct (reflectValue ∅ (VStruct fields) "").
Qed.

Lemma inert_removable_Values sf sv fs1 fs2 :
  inert "" sf sv ->
  Values (Some (VStruct (fs1 ++ (sf, sv) :: fs2)))
  = Values (Some (VStruct (fs1 ++ fs2))).
Proof. intros H. by rewrite !Values_struct, (inert_removable "" sf sv). Qed.

(** ** The sentinel tag *)

(** C2, as the code has it: a field whose tag is exactly [-] contributes
    nothing; the encoding of the record is that of the record without
    the field, at any nesting level and for [Values] itself. *)
Theorem C2_dash_tag_skipped sf sv fs1 fs2 :
  Tag sf = "-" ->
  (forall values scope,
     reflectValue values (VStruct (fs1 ++ (sf, sv) :: fs2)) scope
     = reflectValue values (VStruct (fs1 ++ fs2)) scope)
  /\ Values (Some (VStruct (fs1 ++ (sf, sv) :: fs2)))
     = Values (Some (VStruct (fs1 ++ fs2))).
Proof.
  intros Htag.
  assert (Hin : forall scope, inert scope sf sv).
  { intros scope values embedded. left. unfold reflectField. rewrite Htag.
    by destruct (bool_decide (PkgPath sf ≠ "") && negb (Anonymous sf)). }
  split.
  - intros values scope. by apply inert_removable.
  - by apply inert_removable_Values.
Qed.

Lemma C2_dash_tag_skipped_witness :
  let sf := mkField "Secret" "" false "-" None in
  let q := (mkField "Query" "" false "q" None, VString "foo") in
  Tag sf = "-"
  /\ Values (Some (VStruct ([q] ++ (sf, VInt reflect.I 5) :: [])))
     = Values (Some (VStruct ([q] ++ []))).
Proof.
  intros sf q. split; [reflexivity|].
  apply (C2_dash_tag_skipped sf (VInt reflect.I 5) [q] [] eq_refl).
Defined.

(** C2 as stated fails: the tag [-,omitempty] parses to the name [-],
    yet the field is encoded, under the key [-]. *)
Lemma C2_counterexample :
  fst (parseTag (Tag (mkField "X" "" false "-,omitempty" None))) = "-"
  /\ Values (Some (VStruct [(mkField "X" "" false "-,omitempty" None,
                             VInt reflect.I 5)]))
     = (Some {["-" := ["5"]]}, None)
  /\ Values (Some (VStruct [(mkField "X" "" false "-,omitempty" None,
                             VInt reflect.I 5)]))
     ≠ Values (Some (VStruct [])).
Proof.
  split; [reflexivity|]. split; [by vm_compute|].
  vm_compute. discriminate.
Qed.

(** ** Pointers to timestamps *)

(** C10: a field holding a non-nil pointer to a [time.Time], with no
    custom encoder, adds no entry: the timestamp test sees the pointer
    type, the pointer is resolved, and the timestamp is recursed into as
    a struct whose fields are all unexported. *)
Theorem C10_time_pointer_no_entry sf t :
  Implements sf = None ->
  (forall scope values embedded,
     reflectField reflectValue scope values embedded sf (VPtr (Some (VTime t)))
     = Continue values embedded)
  /\ (forall fs1 fs2,
        Values (Some (VStruct (fs1 ++ (sf, VPtr (Some (VTime t))) :: fs2)))
        = Values (Some (VStruct (fs1 ++ fs2)))).
Proof.
  intros Henc.
  assert (Hstep : forall scope values embedded,
     reflectField reflectValue scope values embedded sf (VPtr (Some (VTime t)))
     = Continue values embedded).
  { intros scope values embedded. unfold reflectField. rewrite Henc.
    destruct (bool_decide (PkgPath sf ≠ "") && negb (Anonymous sf)); [done|].
    destruct (decide (Tag sf = "-")); [done|].
    destruct (parseTag (Tag sf)) as [name opts]. simpl.
    rewrite !andb_false_r. reflexivity. }
  split; [exact Hstep|].
  intros fs1 fs2. apply inert_removable_Values.
  intros values embedded. left. apply Hstep.
Qed.

Lemma C10_time_pointer_no_entry_witness :
  let sf := mkField "Created" "" false "created" None in
  let t := time.mkTime 0 1700000000 false 1700000000 "2023-11-14T22:13:20Z"
             "2023-11-14 22:13:20 +0000 UTC" in
  Implements sf = None
  /\ Values (Some (VStruct ([] ++ (sf, VPtr (Some (VTime t))) :: [])))
     = (Some ∅, None).
Proof.
  intros sf t. split; [reflexivity|].
  rewrite (proj2 (C10_time_pointer_no_entry sf t eq_refl) [] []).
  reflexivity.
Defined.

(** ** The option [omitempty] *)

Lemma isEmptyValue_emptyPerKind v : isEmptyValue v = emptyPerKind v.
Proof.
  destruct v as [b|sz n|sz n|sz z text|s|k elems|len text|p|p|fields|t|k text];
    try reflexivity.
  - by destruct sz.
  - by destruct sz.
  - by destruct sz.
  - unfold isEmptyValue. simpl. by destruct s.
  - destruct k, elems; reflexivity.
  - by destruct k.
Qed.

Lemma valueString_optsAgree opts opts' : optsAgree opts opts' ->
  forall v, valueString v opts' = valueString v opts.
Proof.
  intros Hag. fix IH 1.
  intros [ | | | | | | | [e|] | | | | ]; simpl;
    rewrite ?(Hag "int"), ?(Hag "unix") by discriminate; try reflexivity.
  apply IH.
Qed.

Lemma delimiter_optsAgree opts opts' name : optsAgree opts opts' ->
  delimiter opts' name = delimiter opts name.
Proof.
  intros Hag. unfold delimiter.
  by rewrite (Hag "comma"), (Hag "space"), (Hag "semicolon"), (Hag "brackets").
Qed.

Lemma joinLoop_optsAgree opts opts' del : optsAgree opts opts' ->
  forall elems first s,
  joinLoop del opts' elems first s = joinLoop del opts elems first s.
Proof.
  intros Hag. induction elems as [|e rest IH]; intros first s; simpl; [done|].
  by rewrite IH, (valueString_optsAgree opts opts').
Qed.

Lemma addLoop_optsAgree opts opts' name : optsAgree opts opts' ->
  forall elems i values,
  addLoop name opts' elems i values = addLoop name opts elems i values.
Proof.
  intros Hag. induction elems as [|e rest IH]; intros i values; simpl; [done|].
  by rewrite IH, (valueString_optsAgree opts opts'), (Hag "numbered").
Qed.

Lemma encodeDefault_optsAgree self opts opts' name sv values :
  optsAgree opts opts' ->
  encodeDefault self name opts' sv values
  = encodeDefault self name opts sv values.
Proof.
  intros Hag. unfold encodeDefault.
  rewrite (delimiter_optsAgree opts opts') by done.
  destruct (delimiter opts name) as [del name'].
  rewrite (joinLoop_optsAgree opts opts'), (addLoop_optsAgree opts opts') by done.
  by rewrite !(valueString_optsAgree opts opts').
Qed.

(** C7: with the option [omitempty], an empty value adds no entry (the
    record encodes as the record without the field); a non-empty value
    is encoded as the same field without the option is; and emptiness
    is decided per kind as the specification lists it. *)
Theorem C7_omitempty sf sv :
  Contains (snd (parseTag (Tag sf))) "omitempty" = true ->
  (isEmptyValue sv = true ->
     forall fs1 fs2,
       (forall values scope,
          reflectValue values (VStruct (fs1 ++ (sf, sv) :: fs2)) scope
          = reflectValue values (VStruct (fs1 ++ fs2)) scope)
       /\ Values (Some (VStruct (fs1 ++ (sf, sv) :: fs2)))
          = Values (Some (VStruct (fs1 ++ fs2))))
  /\ (isEmptyValue sv = false ->
        forall sf', withoutOmitempty sf sf' ->
        forall self scope values embedded,
          reflectField self scope values embedded sf sv
          = reflectField self scope values embedded sf' sv)
  /\ (forall v, isEmptyValue v = emptyPerKind v).
Proof.
  intros Homit. split; [|split].
  - intros Hempty fs1 fs2.
    assert (Hin : forall scope, inert scope sf sv).
    { intros scope values embedded. unfold reflectField.
      destruct (bool_decide (PkgPath sf ≠ "") && negb (Anonymous sf)); [by left|].
      destruct (decide (Tag sf = "-")); [by left|].
      destruct (parseTag (Tag sf)) as [name opts]. simpl in Homit.
      destruct (bool_decide (name = "") && Anonymous sf
                && bool_decide (Kind sv = reflect.Struct)) eqn:E.
      - right. apply andb_true_iff in E as [_ E]. apply bool_decide_eq_true in E.
        destruct sv as [b|sz i|sz i|sz z text|s|k elems|len text|p|p|fields|t|k text];
          try discriminate E; try (destruct sz; discriminate E);
          try (destruct k; discriminate E); [discriminate Hempty|].
        by exists t.
      - left. by rewrite Homit, Hempty. }
    split.
    + intros values scope. by apply inert_removable.
    + by apply inert_removable_Values.
  - intros Hne sf' (HN & HP & HA & HI & Htag' & Hname & Hno & Hag)
      self scope values embedded.
    unfold reflectField. rewrite HP, HA, HI.
    destruct (bool_decide (PkgPath sf ≠ "") && negb (Anonymous sf)); [done|].
    destruct (decide (Tag sf' = "-")); [done|].
    destruct (decide (Tag sf = "-")) as [E|_].
    { rewrite E in Homit. discriminate Homit. }
    destruct (parseTag (Tag sf)) as [name opts].
    destruct (parseTag (Tag sf')) as [name' opts']. simpl in *. subst name'.
    destruct (bool_decide (name = "") && Anonymous sf
              && bool_decide (Kind sv = reflect.Struct)); [done|].
    rewrite Hne, Hno, Homit. simpl. unfold fieldName. rewrite HN.
    destruct (Implements sf); [done|].
    by rewrite (encodeDefault_optsAgree self opts opts').
  - apply isEmptyValue_emptyPerKind.
Qed.

Lemma C7_omitempty_witness :
  let sf := mkField "Page" "" false "page,omitempty" None in
  let sf' := mkField "Page" "" false "page" None in
  Contains (snd (parseTag (Tag sf))) "omitempty" = true
  /\ isEmptyValue (VInt reflect.I 0) = true
  /\ Values (Some (VStruct ([] ++ (sf, VInt reflect.I 0) :: [])))
     = (Some ∅, None)
  /\ isEmptyValue (VInt reflect.I 2) = false
  /\ withoutOmitempty sf sf'
  /\ reflectField reflectValue "" ∅ [] sf (VInt reflect.I 2)
     = Continue {["page" := ["2"]]} [].
Proof.
  intros sf sf'.
  assert (Ho : Contains (snd (parseTag (Tag sf))) "omitempty" = true)
    by reflexivity.
  assert (Hw : withoutOmitempty sf sf').
  { unfold withoutOmitempty. simpl.
    repeat (split; [first [reflexivity | discriminate]|]).
    intros o Hne. simpl. destruct (decide ("omitempty" = o)); congruence. }
  split; [exact Ho|]. split; [reflexivity|]. split.
  { destruct (C7_omitempty sf (VInt reflect.I 0) Ho) as (Hempty & _ & _).
    rewrite (proj2 (Hempty eq_refl [] [])). reflexivity. }
  split; [reflexivity|]. split; [exact Hw|].
  destruct (C7_omitempty sf (VInt reflect.I 2) Ho) as (_ & Hfull & _).
  rewrite (Hfull eq_refl sf' Hw reflectValue "" ∅ []).
  by vm_compute.
Defined.

(** ** Strings *)

Lemma string_app_assoc (s1 s2 s3 : string) :
  (s1 +:+ s2) +:+ s3 = s1 +:+ (s2 +:+ s3).
Proof.
  induction s1 as [|c s1 IH]; [reflexivity|].
  change (String c ((s1 +:+ s2) +:+ s3) = String c (s1 +:+ (s2 +:+ s3))).
  by rewrite IH.
Qed.

Lemma string_app_nil_r (s : string) : s +:+ "" = s.
Proof.
  induction s as [|c s IH]; [reflexivity|].
  change (String c (s +:+ "") = String c s). by rewrite IH.
Qed.

(** ** Sequences joined into one entry *)

Lemma joinLoop_later del opts elems : forall s,
  joinLoop del opts elems false s
  = match elems with
    | [] => s
    | _ => s +:+ String del ""
           +:+ String.concat (String del "")
                 (map (fun e => valueString e opts) elems)
    end.
Proof.
  induction elems as [|e rest IH]; intros s; [done|].
  cbn [joinLoop]. rewrite IH. destruct rest as [|e' rest]; simpl.
  - by rewrite string_app_assoc.
  - by rewrite !string_app_assoc.
Qed.

(** The buffer loop computes the elements joined by the delimiter. *)
Lemma joinLoop_concat del opts elems :
  joinLoop del opts elems true ""
  = String.concat (String del "") (map (fun e => valueString e opts) elems).
Proof.
  destruct elems as [|e rest]; [done|].
  cbn [joinLoop]. rewrite joinLoop_later.
  destruct rest; simpl; [done|]. done.
Qed.



(** ** Sequences encoded element by element *)






(** ** Nested structs and bracketed keys *)

Lemma has_prefix_app p q k : has_prefix (p +:+ q) k -> has_prefix p k.
Proof. intros [r ->]. exists (q +:+ r). apply string_app_assoc. Qed.

Lemma has_prefix_trans p q k : has_prefix p q -> has_prefix q k -> has_prefix p k.
Proof. intros [r ->] H. by apply has_prefix_app in H. Qed.

Lemma has_prefix_refl p : has_prefix p p.
Proof. exists "". by rewrite string_app_nil_r. Qed.

Lemma has_prefix_fieldName scope sf name :
  scope ≠ "" -> has_prefix (scope +:+ "[") (fieldName scope sf name).
Proof.
  intros Hs. unfold fieldName, scopedName. rewrite decide_False by done.
  eexists. symmetry. apply string_app_assoc.
Qed.

Lemma string_app_ne_nil (s1 s2 : string) : s2 ≠ "" -> s1 +:+ s2 ≠ "".
Proof. intros H. destruct s1; [done|]. discriminate. Qed.

Lemma has_prefix_ne_nil p k : p ≠ "" -> has_prefix p k -> k ≠ "".
Proof. intros Hp [r ->]. destruct p; [done|]. discriminate. Qed.

Lemma Add_frame p key v (values : url.Values) k :
  has_prefix p key -> ~ has_prefix p k ->
  url.Add key v values !! k = values !! k.
Proof. intros Hkey Hk. apply lookup_Add_ne. by intros ->. Qed.

Lemma addLoop_frame p base opts elems k :
  has_prefix p base -> ~ has_prefix p k ->
  forall i (values : url.Values),
  addLoop base opts elems i values !! k = values !! k.
Proof.
  intros Hb Hk. induction elems as [|e rest IH]; intros i values; [done|].
  cbn [addLoop]. rewrite IH. apply (Add_frame p); [|done].
  destruct (Contains opts "numbered"); [|done].
  eapply has_prefix_trans; [exact Hb|]. by eexists.
Qed.

Lemma encodeDefault_frame self p name opts sv (values : url.Values) k :
  p ≠ "" -> has_prefix p name -> frames self (derefAll sv) ->
  ~ has_prefix p k ->
  encodeDefault self name opts sv values !! k = values !! k.
Proof.
  intros Hp Hname Hself Hk. unfold encodeDefault.
  destruct (bool_decide (Kind sv = reflect.Slice)
            || bool_decide (Kind sv = reflect.Array)).
  - assert (Hd : has_prefix p (delimiter opts name).2).
    { unfold delimiter.
      repeat match goal with
        | |- context [if ?b then _ else _] => destruct b
        end; simpl; try done.
      eapply has_prefix_trans; [exact Hname|]. by eexists. }
    destruct (delimiter opts name) as [del name']. simpl in Hd.
    destruct (decide (del ≠ zero)).
    + by apply (Add_frame p).
    + by apply (addLoop_frame p).
  - destruct (isTimeType sv); [by apply (Add_frame p)|].
    cbn zeta.
    destruct (bool_decide (Kind (derefAll sv) = reflect.Struct)).
    + apply Hself.
      * by apply (has_prefix_ne_nil p).
      * intros H. apply Hk. eapply has_prefix_trans; [exact Hname|].
        by apply has_prefix_app in H.
    + by apply (Add_frame p).
Qed.

Lemma reflectField_frame self scope (values : url.Values) embedded sf sv k :
  scope ≠ "" ->
  (forall m, Implements sf = Some m -> scoped m) ->
  frames self (derefAll sv) ->
  ~ has_prefix (scope +:+ "[") k ->
  match reflectField self scope values embedded sf sv with
  | Continue values' _ => values' !! k = values !! k
  | Return values' _ => values' !! k = values !! k
  end.
Proof.
  intros Hs Henc Hself Hk. unfold reflectField.
  destruct (bool_decide (PkgPath sf ≠ "") && negb (Anonymous sf)); [done|].
  destruct (decide (Tag sf = "-")); [done|].
  destruct (parseTag (Tag sf)) as [name opts].
  destruct (bool_decide (name = "") && Anonymous sf
            && bool_decide (Kind sv = reflect.Struct)); [done|].
  destruct (Contains opts "omitempty" && isEmptyValue sv); [done|].
  pose proof (has_prefix_fieldName scope sf name Hs) as Hname.
  destruct (Implements sf) as [m|] eqn:Em.
  - specialize (Henc m eq_refl (fieldName scope sf name) values k).
    destruct (m (fieldName scope sf name) values) as [values' [err|]];
      simpl in Henc; apply Henc; intros H; apply Hk;
      by eapply has_prefix_trans.
  - apply (encodeDefault_frame self (scope +:+ "[")); try done.
    by apply string_app_ne_nil.
Qed.

Lemma fieldsLoop_frame self scope fields k :
  scope ≠ "" ->
  Forall (fun f => (forall m, Implements f.1 = Some m -> scoped m)
                   /\ frames self (derefAll f.2)) fields ->
  ~ has_prefix (scope +:+ "[") k ->
  forall (values : url.Values) embedded,
  match fieldsLoop self scope fields values embedded with
  | Continue values' _ => values' !! k = values !! k
  | Return values' _ => values' !! k = values !! k
  end.
Proof.
  intros Hs Hall Hk.
  induction Hall as [|[sf sv] rest [Henc Hself] _ IH]; intros values embedded;
    [done|].
  cbn [fieldsLoop].
  pose proof (reflectField_frame self scope values embedded sf sv k
                Hs Henc Hself Hk) as H1.
  destruct (reflectField self scope values embedded sf sv) as [v1 e1|]; [|done].
  specialize (IH v1 e1).
  destruct (fieldsLoop self scope rest v1 e1); congruence.
Qed.

Lemma embeddedLoop_frame self scope embedded k :
  scope ≠ "" ->
  Forall (frames self) embedded ->
  ~ has_prefix (scope +:+ "[") k ->
  forall (values : url.Values),
  (embeddedLoop self scope embedded values).1 !! k = values !! k.
Proof.
  intros Hs Hall Hk.
  induction Hall as [|f rest Hf _ IH]; intros values; [done|].
  cbn [embeddedLoop]. specialize (Hf values scope k Hs Hk).
  destruct (self values f scope) as [v1 [err|]]; simpl in Hf; [done|].
  rewrite IH. done.
Qed.

Lemma encodersScoped_derefAll : forall sv,
  encodersScoped sv -> encodersScoped (derefAll sv).
Proof.
  fix IH 1. intros [ | | | | | | | [e|] | | | | ] H; try exact H.
  simpl. apply IH. inversion H as [|e' He|v Hv]; [exact He|destruct Hv].
Qed.

(** Under a non-empty scope [reflectValue] writes only under keys that
    start with the scope followed by a bracket. *)
Lemma reflectValue_frames n : forall val,
  depth val < n -> encodersScoped val -> frames reflectValue val.
Proof.
  induction n as [|n IH]; intros val Hd Hval; [lia|].
  intros values scope k Hs Hk. rewrite reflectValue_unfold.
  unfold reflectValue_body.
  destruct val as [b|sz i|sz i|sz z text|s|kd elems|len text|p|p|fields|t|kd text];
    try done.
  cbn [Fields].
  assert (Hall : Forall (fun f => (forall m, Implements f.1 = Some m -> scoped m)
                                  /\ frames reflectValue (derefAll f.2)
                                  /\ frames reflectValue f.2) fields).
  { inversion Hval as [fs Hfs| |v Hv]; [|destruct Hv]. subst fs.
    pose proof (depth_Fields (VStruct fields)) as Hdf. cbn [Fields] in Hdf.
    apply Forall_forall. intros [sf sv] Hin.
    apply (proj1 (Forall_forall _ _) Hfs) in Hin as Hsc.
    apply (proj1 (Forall_forall _ _) Hdf) in Hin as Hlt.
    destruct Hsc as [Henc Hsv]. cbn [fst snd] in *.
    split; [exact Henc|]. split.
    - apply IH; [|by apply encodersScoped_derefAll].
      pose proof (depth_derefAll sv). lia.
    - apply IH; [lia|done]. }
  pose proof (fieldsLoop_frame reflectValue scope fields k Hs) as Hloop.
  specialize (Hloop ltac:(eapply Forall_impl; [exact Hall|]; intros ? (? & ? & ?); done)
                Hk values []).
  destruct (fieldsLoop reflectValue scope fields values []) as [v1 e1|] eqn:E;
    [|done].
  rewrite embeddedLoop_frame; [done..| |done].
  apply fieldsLoop_deferred in E.
  apply Forall_forall. intros f Hf. apply E in Hf.
  apply list_elem_of_fmap in Hf as [[sf sv] [-> Hin]].
  apply (proj1 (Forall_forall _ _) Hall) in Hin. tauto.
Qed.

(** C8: a field whose value, pointers resolved, is a nested struct is
    encoded by recursing into the struct with the field's own name as
    the scope ([outer[inner]] under a scope [outer]) and the map built
    so far; the fields of the nested struct are named [name[field]], and
    the recursion changes nothing outside the keys that start with
    [name[]. *)
Theorem C8_nested_scope scope values embedded sf sv name opts :
  encoded sf sv name opts ->
  isSeqKind sv = false ->
  isTimeType sv = false ->
  Kind (derefAll sv) = reflect.Struct ->
  Name sf ≠ "" ->
  encodersScoped (derefAll sv) ->
  let key := fieldName scope sf name in
  reflectField reflectValue scope values embedded sf sv
  = Continue (reflectValue values (derefAll sv) key).1 embedded
  /\ (forall k, ~ has_prefix (key +:+ "[") k ->
        (reflectValue values (derefAll sv) key).1 !! k = values !! k)
  /\ (scope ≠ "" ->
      key = scope +:+ "[" +:+ (if decide (name = "") then Name sf else name)
            +:+ "]")
  /\ (forall sf' name',
        fieldName key sf' name'
        = key +:+ "[" +:+ (if decide (name' = "") then Name sf' else name')
          +:+ "]").
Proof.
  intros Henc Hseq Htime Hstruct HName Hsc key.
  assert (Hkey : key ≠ "").
  { unfold key, fieldName, scopedName. destruct (decide (scope = "")).
    - by destruct (decide (name = "")).
    - by apply string_app_ne_nil. }
  split; [|split; [|split]].
  - rewrite (reflectField_encoded _ _ _ _ _ _ _ _ Henc).
    unfold encodeDefault. fold (isSeqKind sv). rewrite Hseq, Htime.
    cbn zeta. by rewrite bool_decide_true.
  - intros k Hk.
    by apply (reflectValue_frames (S (depth (derefAll sv)))); [lia|..].
  - intros Hs. unfold key, fieldName, scopedName. by rewrite decide_False.
  - intros sf' name'. unfold fieldName at 1, scopedName at 1.
    by rewrite decide_False.
Qed.

Lemma C8_nested_scope_witness :
  let city := (mkField "City" "" false "city" None, VString "SFO") in
  let sf := mkField "Addr" "" false "addr" None in
  let sv := VPtr (Some (VStruct [city])) in
  encoded sf sv "addr" []
  /\ isSeqKind sv = false
  /\ isTimeType sv = false
  /\ Kind (derefAll sv) = reflect.Struct
  /\ Name sf ≠ ""
  /\ encodersScoped (derefAll sv)
  /\ reflectField reflectValue "user" ∅ [] sf sv
     = Continue {["user[addr][city]" := ["SFO"]]} [].
Proof.
  intros city sf sv.
  assert (He : encoded sf sv "addr" []) by prove_encoded.
  assert (Hn : Name sf ≠ "") by discriminate.
  assert (Hsc : encodersScoped (derefAll sv)).
  { apply encodersScoped_struct. constructor; [|constructor].
    split; [discriminate|]. by apply encodersScoped_other. }
  split; [exact He|]. do 3 (split; [reflexivity|]).
  split; [exact Hn|]. split; [exact Hsc|].
  rewrite (proj1 (C8_nested_scope "user" ∅ [] sf sv "addr" []
                    He eq_refl eq_refl eq_refl Hn Hsc)).
  by vm_compute.
Defined.

(** The nested example of the documentation (lines 107-110). *)
Example nested_example :
  let fld n tag := mkField n "" false tag None in
  Values (Some (VStruct
    [(fld "User" "user",
      VStruct
        [(fld "Name" "name", VString "acme");
         (fld "Addr" "addr",
          VStruct [(fld "Postcode" "postcode", VInt reflect.I 1234);
                   (fld "City" "city", VString "SFO")])])]))
  = (Some {["user[name]" := ["acme"];
            "user[addr][postcode]" := ["1234"];
            "user[addr][city]" := ["SFO"]]}, None).
Proof. by vm_compute. Qed.

(** ** Errors of custom encoders *)


(** The error of a deferred embedded struct is returned (lines 310-314). *)
Lemma embedded_error_returned self scope f rest values values' err :
  self values f scope = (values', Some err) ->
  embeddedLoop self scope (f :: rest) values = (values', Some err).
Proof. intros H. cbn [embeddedLoop]. by rewrite H. Qed.

(** The error of a nested struct is dropped (line 303): whatever the
    recursive call returns, the loop goes on. *)
Lemma nested_error_discarded self scope values embedded sf sv name opts :
  encoded sf sv name opts ->
  isSeqKind sv = false ->
  isTimeType sv = false ->
  Kind (derefAll sv) = reflect.Struct ->
  reflectField self scope values embedded sf sv
  = Continue (self values (derefAll sv) (fieldName scope sf name)).1 embedded.
Proof.
  intros Henc Hseq Htime Hstruct.
  rewrite (reflectField_encoded _ _ _ _ _ _ _ _ Henc).
  unfold encodeDefault. fold (isSeqKind sv). rewrite Hseq, Htime.
  cbn zeta. by rewrite bool_decide_true.
Qed.

(** C1 at a record whose nested struct holds a field with a failing
    custom encoder: [Values] reports no error and goes on to encode the
    fields after the nested struct.  The same failing field directly in
    the record, or in an embedded struct, does return the error. *)
Theorem C1_nested_encoder_error_lost :
  let failing := (mkField "F" "" false "f" (Some failingEncoder),
                  VInt reflect.I 1) in
  let after := (mkField "After" "" false "after" None, VInt reflect.I 3) in
  Values (Some (VStruct
    [(mkField "Inner" "" false "in" None, VStruct [failing]); after]))
  = (Some {["after" := ["3"]]}, None)
  /\ Values (Some (VStruct [failing; after]))
     = (Some ∅, Some "encode failed")
  /\ Values (Some (VStruct
       [(mkField "Inner" "" true "" None, VStruct [failing]); after]))
     = (Some {["after" := ["3"]]}, Some "encode failed").
Proof. by vm_compute. Qed.

(** ** The scenarios of the documentation *)

Example options_example :
  let fld n tag := mkField n "" false tag None in
  Values (Some (VStruct
    [(fld "Query" "q", VString "foo");
     (fld "ShowAll" "all", VBool true);
     (fld "Page" "page", VInt reflect.I 2)]))
  = (Some {["q" := ["foo"]; "all" := ["true"]; "page" := ["2"]]}, None).
Proof. by vm_compute. Qed.

Example slice_example :
  let fld n tag := mkField n "" false tag None in
  let tags := VSeq reflect.KSlice [VString "a"; VString "b"] in
  Values (Some (VStruct [(fld "Tags" "tags,comma", tags)]))
  = (Some {["tags" := ["a,b"]]}, None)
  /\ Values (Some (VStruct [(fld "Tags" "tags", tags)]))
     = (Some {["tags" := ["a"; "b"]]}, None)
  /\ Values (Some (VStruct [(fld "Tags" "tags,brackets", tags)]))
     = (Some {["tags[]" := ["a"; "b"]]}, None).
Proof. by vm_compute. Qed.

Example nil_example :
  Values None = (Some ∅, None)
  /\ Values (Some (VPtr None)) = (Some ∅, None).
Proof. by vm_compute. Qed.

Example number_example :
  Values (Some (VInt reflect.I 7))
  = (None, Some "query: Values() expects struct input. Got int").
Proof. by vm_compute. Qed.

(** * Further properties of the code *)

(** ** The tag parser *)

Lemma Split_nonempty s sep : Split s sep ≠ [].
Proof.
  destruct s as [|c rest]; simpl; [done|].
  destruct (decide (c = sep)); [done|]. by destruct (Split rest sep).
Qed.

Lemma concat_cons_nonempty sep x l :
  l ≠ [] -> String.concat sep (x :: l) = x +:+ sep +:+ String.concat sep l.
Proof. by destruct l. Qed.

Lemma Split_concat sep : forall s,
  String.concat (String sep "") (Split s sep) = s.
Proof.
  induction s as [|c rest IH]; [done|].
  cbn [Split]. destruct (decide (c = sep)) as [->|Hne].
  - rewrite concat_cons_nonempty by apply Split_nonempty. by rewrite IH.
  - pose proof (Split_nonempty rest sep) as Hnil.
    destruct (Split rest sep) as [|h t]; [done|].
    destruct t as [|h' t].
    + simpl in *. by rewrite IH.
    + rewrite concat_cons_nonempty in IH by done.
      rewrite concat_cons_nonempty by done.
      change (String c (h +:+ String sep "" +:+ String.concat (String sep "") (h' :: t))
              = String c rest). by rewrite IH.
Qed.

Lemma Split_length sep : forall s,
  length (Split s sep) = S (countByte sep s).
Proof.
  induction s as [|c rest IH]; [done|].
  cbn [Split countByte]. destruct (decide (c = sep)).
  - simpl. by rewrite IH.
  - pose proof (Split_nonempty rest sep).
    destruct (Split rest sep); [done|]. simpl in *. lia.
Qed.

Lemma Split_no_sep sep : forall s,
  Forall (fun x => countByte sep x = 0) (Split s sep).
Proof.
  induction s as [|c rest IH]; [by repeat constructor|].
  cbn [Split]. destruct (decide (c = sep)) as [->|Hne].
  - by constructor.
  - pose proof (Split_nonempty rest sep).
    destruct (Split rest sep) as [|h t]; [done|].
    inversion IH as [|? ? Hh Ht]; subst. constructor; [|done].
    simpl. by rewrite decide_False.
Qed.

(** X1: the tag parser loses nothing: the name and the options, joined
    by commas, are the tag. *)
Theorem parseTag_join tag :
  String.concat "," ((parseTag tag).1 :: (parseTag tag).2) = tag.
Proof.
  unfold parseTag. pose proof (Split_concat ","%char tag) as H.
  pose proof (Split_nonempty tag ","%char).
  by destruct (Split tag ","%char).
Qed.

(** X2: the parser splits at every comma: there are as many options as
    commas in the tag, and neither the name nor an option holds one. *)
Theorem parseTag_commas tag :
  length (parseTag tag).2 = countByte ","%char tag
  /\ countByte ","%char (parseTag tag).1 = 0
  /\ Forall (fun o => countByte ","%char o = 0) (parseTag tag).2.
Proof.
  unfold parseTag.
  pose proof (Split_length ","%char tag) as Hlen.
  pose proof (Split_no_sep ","%char tag) as Hsep.
  destruct (Split tag ","%char) as [|h t]; [done|].
  inversion Hsep; subst. simpl in *. split; [lia|done].
Qed.

(** ** Options *)

Lemma sameOptions_at opts opts' o :
  sameOptions opts opts' -> o ∈ recognized -> Contains opts' o = Contains opts o.
Proof. intros H Ho. by apply (proj1 (Forall_forall _ _) H). Qed.

Ltac same_option H o :=
  rewrite (sameOptions_at _ _ o H) by (unfold recognized; set_solver).

Lemma valueString_sameOptions opts opts' : sameOptions opts opts' ->
  forall v, valueString v opts' = valueString v opts.
Proof.
  intros Hag. fix IH 1.
  intros [ | | | | | | | [e|] | | | | ]; simpl;
    rewrite ?(sameOptions_at _ _ "int" Hag), ?(sameOptions_at _ _ "unix" Hag)
      by (unfold recognized; set_solver);
    try reflexivity.
  apply IH.
Qed.

Lemma encodeDefault_sameOptions self opts opts' name sv values :
  sameOptions opts opts' ->
  encodeDefault self name opts' sv values
  = encodeDefault self name opts sv values.
Proof.
  intros Hag. unfold encodeDefault.
  assert (Hd : delimiter opts' name = delimiter opts name).
  { unfold delimiter. same_option Hag "comma". same_option Hag "space".
    same_option Hag "semicolon". by same_option Hag "brackets". }
  rewrite Hd. destruct (delimiter opts name) as [del name'].
  assert (Hj : forall elems first s,
             joinLoop del opts' elems first s = joinLoop del opts elems first s).
  { induction elems as [|e rest IH]; intros first s; simpl; [done|].
    by rewrite IH, (valueString_sameOptions opts opts'). }
  assert (Ha : forall elems i vs,
             addLoop name' opts' elems i vs = addLoop name' opts elems i vs).
  { induction elems as [|e rest IH]; intros i vs; simpl; [done|].
    rewrite IH, (valueString_sameOptions opts opts') by done.
    by same_option Hag "numbered". }
  by rewrite Hj, Ha, !(valueString_sameOptions opts opts').
Qed.

(** X3: the encoding of a field depends on its options only through the
    presence of the eight recognized ones: the order of the options,
    repetitions and unknown options change nothing. *)
Theorem options_by_membership sf sf' :
  Name sf' = Name sf -> PkgPath sf' = PkgPath sf ->
  Anonymous sf' = Anonymous sf -> Implements sf' = Implements sf ->
  Tag sf ≠ "-" -> Tag sf' ≠ "-" ->
  (parseTag (Tag sf')).1 = (parseTag (Tag sf)).1 ->
  sameOptions (parseTag (Tag sf)).2 (parseTag (Tag sf')).2 ->
  forall self scope values embedded sv,
    reflectField self scope values embedded sf' sv
    = reflectField self scope values embedded sf sv.
Proof.
  intros HN HP HA HI Ht Ht' Hname Hag self scope values embedded sv.
  unfold reflectField. rewrite HP, HA, HI.
  destruct (bool_decide (PkgPath sf ≠ "") && negb (Anonymous sf)); [done|].
  rewrite !decide_False by done.
  destruct (parseTag (Tag sf)) as [name opts].
  destruct (parseTag (Tag sf')) as [name' opts']. simpl in *. subst name'.
  destruct (bool_decide (name = "") && Anonymous sf
            && bool_decide (Kind sv = reflect.Struct)); [done|].
  same_option Hag "omitempty". unfold fieldName. rewrite HN.
  destruct (Contains opts "omitempty" && isEmptyValue sv); [done|].
  destruct (Implements sf); [done|].
  by rewrite (encodeDefault_sameOptions self opts opts').
Qed.

Lemma options_by_membership_witness :
  let sf := mkField "Tags" "" false "tags,comma,int" None in
  let sf' := mkField "Tags" "" false "tags,int,shout,comma,int" None in
  let sv := VSeq reflect.KSlice [VBool true; VBool false] in
  Tag sf ≠ "-" /\ Tag sf' ≠ "-"
  /\ (parseTag (Tag sf')).1 = (parseTag (Tag sf)).1
  /\ sameOptions (parseTag (Tag sf)).2 (parseTag (Tag sf')).2
  /\ reflectField reflectValue "" ∅ [] sf' sv
     = Continue {["tags" := ["1,0"]]} [].
Proof.
  intros sf sf' sv.
  assert (Ht : Tag sf ≠ "-") by discriminate.
  assert (Ht' : Tag sf' ≠ "-") by discriminate.
  assert (Hs : sameOptions (parseTag (Tag sf)).2 (parseTag (Tag sf')).2)
    by (repeat constructor).
  split; [exact Ht|]. split; [exact Ht'|]. split; [reflexivity|].
  split; [exact Hs|].
  rewrite (options_by_membership sf sf' eq_refl eq_refl eq_refl eq_refl
             Ht Ht' eq_refl Hs reflectValue "" ∅ [] sv).
  by vm_compute.
Defined.

(** ** Fields that are never encoded *)

(** X4: an unexported field that is not embedded contributes nothing:
    the record encodes as the record without it. *)
Theorem unexported_field_skipped sf sv fs1 fs2 :
  PkgPath sf ≠ "" -> Anonymous sf = false ->
  (forall values scope,
     reflectValue values (VStruct (fs1 ++ (sf, sv) :: fs2)) scope
     = reflectValue values (VStruct (fs1 ++ fs2)) scope)
  /\ Values (Some (VStruct (fs1 ++ (sf, sv) :: fs2)))
     = Values (Some (VStruct (fs1 ++ fs2))).
Proof.
  intros Hp Ha.
  assert (Hin : forall scope, inert scope sf sv).
  { intros scope values embedded. left. unfold reflectField.
    by rewrite bool_decide_true, Ha. }
  split.
  - intros values scope. by apply inert_removable.
  - by apply inert_removable_Values.
Qed.

Lemma unexported_field_skipped_witness :
  let sf := mkField "secret" "query" false "secret" None in
  let q := (mkField "Query" "" false "q" None, VString "foo") in
  PkgPath sf ≠ "" /\ Anonymous sf = false
  /\ Values (Some (VStruct ([q] ++ (sf, VString "hidden") :: [])))
     = (Some {["q" := ["foo"]]}, None).
Proof.
  intros sf q.
  assert (Hp : PkgPath sf ≠ "") by discriminate.
  split; [exact Hp|]. split; [reflexivity|].
  rewrite (proj2 (unexported_field_skipped sf (VString "hidden") [q] []
                    Hp eq_refl)).
  by vm_compute.
Defined.

(** X5: an embedded [time.Time] without a tag name contributes nothing:
    it is deferred as an embedded struct and then recursed into, and all
    its fields are unexported. *)
Theorem embedded_time_no_entry sf t fs1 fs2 :
  Anonymous sf = true -> (parseTag (Tag sf)).1 = "" ->
  (forall values scope,
     reflectValue values (VStruct (fs1 ++ (sf, VTime t) :: fs2)) scope
     = reflectValue values (VStruct (fs1 ++ fs2)) scope)
  /\ Values (Some (VStruct (fs1 ++ (sf, VTime t) :: fs2)))
     = Values (Some (VStruct (fs1 ++ fs2))).
Proof.
  intros Ha Hname.
  assert (Hin : forall scope, inert scope sf (VTime t)).
  { intros scope values embedded. unfold reflectField. rewrite Ha.
    rewrite andb_false_r.
    destruct (decide (Tag sf = "-")); [by left|].
    destruct (parseTag (Tag sf)) as [name opts]. simpl in Hname. subst name.
    right. by exists t. }
  split.
  - intros values scope. by apply inert_removable.
  - by apply inert_removable_Values.
Qed.

Lemma embedded_time_no_entry_witness :
  let sf := mkField "Time" "" true "" None in
  let t := time.mkTime 0 1700000000 false 1700000000 "2023-11-14T22:13:20Z"
             "2023-11-14 22:13:20 +0000 UTC" in
  let q := (mkField "Query" "" false "q" None, VString "foo") in
  Anonymous sf = true /\ (parseTag (Tag sf)).1 = ""
  /\ Values (Some (VStruct ([] ++ (sf, VTime t) :: [q])))
     = (Some {["q" := ["foo"]]}, None).
Proof.
  intros sf t q. split; [reflexivity|]. split; [reflexivity|].
  rewrite (proj2 (embedded_time_no_entry sf t [] [q] eq_refl eq_refl)).
  by vm_compute.
Defined.

(** ** Edge cases of the default rules *)

(** X6: an empty slice or array adds one entry with the empty string
    when a join option is present, and no entry otherwise. *)
Theorem empty_sequence self scope values embedded sf k name opts :
  encoded sf (VSeq k []) name opts ->
  reflectField self scope values embedded sf (VSeq k [])
  = if Contains opts "comma" || Contains opts "space"
       || Contains opts "semicolon"
    then Continue (url.Add (fieldName scope sf name) "" values) embedded
    else Continue values embedded.
Proof.
  intros Henc. rewrite (reflectField_encoded _ _ _ _ _ _ _ _ Henc).
  unfold encodeDefault, delimiter.
  assert (Hseq : bool_decide (Kind (VSeq k []) = reflect.Slice)
                 || bool_decide (Kind (VSeq k []) = reflect.Array) = true)
    by (by destruct k).
  rewrite Hseq.
  destruct (Contains opts "comma"); [done|].
  destruct (Contains opts "space"); [done|].
  destruct (Contains opts "semicolon"); [done|].
  by destruct (Contains opts "brackets").
Qed.

Lemma empty_sequence_witness :
  let sf := mkField "Tags" "" false "tags,space" None in
  encoded sf (VSeq reflect.KSlice []) "tags" ["space"]
  /\ reflectField reflectValue "" ∅ [] sf (VSeq reflect.KSlice [])
     = Continue {["tags" := [""]]} [].
Proof.
  intros sf.
  assert (He : encoded sf (VSeq reflect.KSlice []) "tags" ["space"])
    by prove_encoded.
  split; [exact He|].
  rewrite (empty_sequence reflectValue "" ∅ [] sf reflect.KSlice "tags"
             ["space"] He).
  by vm_compute.
Defined.

(** X7: a non-nil pointer field is encoded as the value it points to,
    when that value is neither a slice, an array nor a [time.Time], the
    field has no custom encoder, and [omitempty] would not omit the
    value pointed to. *)
Theorem pointer_as_pointee self scope values embedded sf sv :
  Implements sf = None ->
  isSeqKind sv = false -> isTimeType sv = false ->
  ~ ((parseTag (Tag sf)).1 = "" /\ Anonymous sf = true
     /\ Kind sv = reflect.Struct) ->
  Contains (parseTag (Tag sf)).2 "omitempty" = false
    \/ isEmptyValue sv = false ->
  reflectField self scope values embedded sf (VPtr (Some sv))
  = reflectField self scope values embedded sf sv.
Proof.
  intros Henc Hseq Htime Hdefer Homit. unfold reflectField. rewrite Henc.
  destruct (bool_decide (PkgPath sf ≠ "") && negb (Anonymous sf)); [done|].
  destruct (decide (Tag sf = "-")); [done|].
  destruct (parseTag (Tag sf)) as [name opts]. simpl in *.
  rewrite andb_false_r.
  destruct (bool_decide (name = "") && Anonymous sf
            && bool_decide (Kind sv = reflect.Struct)) eqn:E.
  { apply andb_true_iff in E as [E E3]. apply andb_true_iff in E as [E1 E2].
    apply bool_decide_eq_true in E1, E3. tauto. }
  assert (Hno : Contains opts "omitempty" && isEmptyValue sv = false).
  { destruct Homit as [-> | ->]; [done|apply andb_false_r]. }
  rewrite Hno.
  change (isEmptyValue (VPtr (Some sv))) with false. rewrite andb_false_r.
  unfold encodeDefault. fold (isSeqKind sv). rewrite Hseq, Htime.
  cbn. by rewrite valueString_derefAll.
Qed.

Lemma pointer_as_pointee_witness :
  let sf := mkField "Page" "" false "page,omitempty" None in
  Implements sf = None
  /\ isSeqKind (VInt reflect.I 2) = false
  /\ isTimeType (VInt reflect.I 2) = false
  /\ isEmptyValue (VInt reflect.I 2) = false
  /\ reflectField reflectValue "" ∅ [] sf (VPtr (Some (VInt reflect.I 2)))
     = Continue {["page" := ["2"]]} [].
Proof.
  intros sf. do 4 (split; [reflexivity|]).
  rewrite (pointer_as_pointee reflectValue "" ∅ [] sf (VInt reflect.I 2)
             eq_refl eq_refl eq_refl).
  - by vm_compute.
  - intros (H & _). discriminate H.
  - by right.
Defined.



(** ** The order of encoding *)

Lemma reflectField_deferredField self scope values embedded sf sv :
  deferredField sf sv ->
  reflectField self scope values embedded sf sv
  = Continue values (embedded ++ [sv]).
Proof.
  intros (Ha & Htag & Hname & Hk). unfold reflectField.
  rewrite Ha, andb_false_r, decide_False by done.
  destruct (parseTag (Tag sf)) as [name opts]. simpl in Hname. subst name.
  by rewrite !bool_decide_true.
Qed.

Lemma reflectField_not_deferred self scope values sf sv values' e :
  ~ deferredField sf sv ->
  reflectField self scope values [] sf sv = Continue values' e -> e = [].
Proof.
  intros Hnd. unfold reflectField.
  destruct (bool_decide (PkgPath sf ≠ "") && negb (Anonymous sf));
    [by intros [= _ <-]|].
  destruct (decide (Tag sf = "-")); [by intros [= _ <-]|].
  destruct (parseTag (Tag sf)) as [name opts] eqn:Hp.
  destruct (bool_decide (name = "") && Anonymous sf
            && bool_decide (Kind sv = reflect.Struct)) eqn:E.
  { apply andb_true_iff in E as [E E3]. apply andb_true_iff in E as [E1 E2].
    apply bool_decide_eq_true in E1, E3. destruct Hnd.
    unfold deferredField. by rewrite Hp. }
  destruct (Contains opts "omitempty" && isEmptyValue sv); [by intros [= _ <-]|].
  destruct (Implements sf) as [m|].
  - destruct (m (fieldName scope sf name) values) as [v [err|]];
      [done|by intros [= _ <-]].
  - by intros [= _ <-].
Qed.

Lemma fieldsLoop_noDeferred self scope fields :
  noDeferred fields ->
  forall values values' e,
  fieldsLoop self scope fields values [] = Continue values' e -> e = [].
Proof.
  induction 1 as [|[sf sv] rest Hnd _ IH]; intros values values' e; simpl.
  - by intros [= _ <-].
  - destruct (reflectField self scope values [] sf sv) as [v1 e1|] eqn:H1;
      [|done].
    apply (reflectField_not_deferred _ _ _ _ _ _ _ Hnd) in H1 as ->.
    apply IH.
Qed.

(** X9: an embedded struct declared last is encoded after the rest of
    the record, under the record's own scope and into the same map, and
    its error is the error of the record. *)
Theorem embedded_struct_last sf sv fs values scope :
  deferredField sf sv ->
  reflectValue values (VStruct (fs ++ [(sf, sv)])) scope
  = match reflectValue values (VStruct fs) scope with
    | (values', None) => reflectValue values' sv scope
    | (values', Some err) => (values', Some err)
    end.
Proof.
  intros Hd. rewrite !(reflectValue_unfold _ (VStruct _)).
  unfold reflectValue_body. cbn [Fields]. rewrite fieldsLoop_app.
  destruct (fieldsLoop reflectValue scope fs values []) as [v1 e1|]; [|done].
  cbn [fieldsLoop]. rewrite (reflectField_deferredField _ _ _ _ _ _ Hd).
  rewrite embeddedLoop_app.
  destruct (embeddedLoop reflectValue scope e1 v1) as [v2 [err|]]; [done|].
  cbn [embeddedLoop]. by destruct (reflectValue v2 sv scope) as [v3 [err|]].
Qed.

Lemma embedded_struct_last_witness :
  let inner := VStruct [(mkField "City" "" false "city" None, VString "SFO")] in
  let sf := mkField "Addr" "" true "" None in
  let q := (mkField "Query" "" false "q" None, VString "foo") in
  deferredField sf inner
  /\ reflectValue ∅ (VStruct ([q] ++ [(sf, inner)])) "user"
     = ({["user[q]" := ["foo"]; "user[city]" := ["SFO"]]}, None).
Proof.
  intros inner sf q.
  assert (Hd : deferredField sf inner).
  { unfold deferredField. simpl. repeat split; try done. }
  split; [exact Hd|].
  rewrite (embedded_struct_last sf inner [q] ∅ "user" Hd).
  by vm_compute.
Defined.

(** X10: embedded structs are encoded after the fields declared after
    them: when none of the later fields is itself a deferred embedded
    struct, the record encodes as if the embedded struct were declared
    last. *)
Theorem embedded_struct_after_fields sf sv fs1 fs2 values scope :
  deferredField sf sv -> noDeferred fs2 ->
  reflectValue values (VStruct (fs1 ++ (sf, sv) :: fs2)) scope
  = reflectValue values (VStruct ((fs1 ++ fs2) ++ [(sf, sv)])) scope.
Proof.
  intros Hd Hnd. rewrite !reflectValue_unfold.
  unfold reflectValue_body. cbn [Fields]. rewrite !fieldsLoop_app.
  destruct (fieldsLoop reflectValue scope fs1 values []) as [v1 e1|]; [|done].
  cbn [fieldsLoop]. rewrite (reflectField_deferredField _ _ _ _ _ _ Hd).
  rewrite (fieldsLoop_embedded _ _ _ _ (e1 ++ [sv])).
  rewrite (fieldsLoop_embedded _ _ _ _ e1).
  destruct (fieldsLoop reflectValue scope fs2 v1 []) as [v2 e2|] eqn:E; [|done].
  apply (fieldsLoop_noDeferred _ _ _ Hnd) in E as ->.
  rewrite !app_nil_r. by rewrite (reflectField_deferredField _ _ _ _ _ _ Hd).
Qed.

Lemma embedded_struct_after_fields_witness :
  let inner := VStruct [(mkField "City" "" false "q" None, VString "SFO")] in
  let sf := mkField "Addr" "" true "" None in
  let q := (mkField "Query" "" false "q" None, VString "foo") in
  deferredField sf inner /\ noDeferred [q]
  /\ reflectValue ∅ (VStruct ([] ++ (sf, inner) :: [q])) ""
     = ({["q" := ["foo"; "SFO"]]}, None).
Proof.
  intros inner sf q.
  assert (Hd : deferredField sf inner).
  { unfold deferredField. simpl. repeat split; try done. }
  assert (Hn : noDeferred [q]).
  { constructor; [|constructor]. intros (H & _). discriminate H. }
  split; [exact Hd|]. split; [exact Hn|].
  rewrite (embedded_struct_after_fields sf inner [] [q] ∅ "" Hd Hn).
  by vm_compute.
Defined.

(** X11: encoding goes field by field in declaration order: when the
    first part of a record holds no deferred embedded struct, the record
    encodes as its first part followed by its second part on the map the
    first part left; an error of the first part ends the encoding. *)
Theorem fields_in_sequence fs1 fs2 values scope :
  noDeferred fs1 ->
  reflectValue values (VStruct (fs1 ++ fs2)) scope
  = match reflectValue values (VStruct fs1) scope with
    | (values', None) => reflectValue values' (VStruct fs2) scope
    | (values', Some err) => (values', Some err)
    end.
Proof.
  intros Hnd. rewrite !reflectValue_unfold.
  unfold reflectValue_body. cbn [Fields]. rewrite fieldsLoop_app.
  destruct (fieldsLoop reflectValue scope fs1 values []) as [v1 e1|] eqn:E;
    [|done].
  apply (fieldsLoop_noDeferred _ _ _ Hnd) in E as ->.
  cbn [embeddedLoop]. by rewrite reflectValue_unfold.
Qed.

Lemma fields_in_sequence_witness :
  let q := (mkField "Query" "" false "q" None, VString "foo") in
  let p := (mkField "Page" "" false "q" None, VInt reflect.I 2) in
  noDeferred [q]
  /\ reflectValue ∅ (VStruct ([q] ++ [p])) "" = ({["q" := ["foo"; "2"]]}, None).
Proof.
  intros q p.
  assert (Hn : noDeferred [q]).
  { constructor; [|constructor]. intros (H & _). discriminate H. }
  split; [exact Hn|].
  rewrite (fields_in_sequence [q] [p] ∅ "" Hn).
  by vm_compute.
Defined.

(** ** Errors *)



Lemma encodersAll_derefAll P : forall sv,
  encodersAll P sv -> encodersAll P (derefAll sv).
Proof.
  fix IH 1. intros [ | | | | | | | [e|] | | | | ] H; try exact H.
  simpl. apply IH. inversion H as [|e' He|v Hv]; [exact He|destruct Hv].
Qed.

Lemma encodersAll_fields P fields :
  encodersAll P (VStruct fields) ->
  Forall (fun f => (forall m, Implements f.1 = Some m -> P m)
                   /\ encodersAll P f.2) fields.
Proof. intros H. inversion H as [fs Hfs| |v Hv]; [done|destruct Hv]. Qed.






(** X14: [Values] returns the nil map exactly when the input is not nil
    and its pointers lead to a value that is not a struct; it then
    returns an error, so it never returns a nil map with a nil error. *)
Theorem Values_nil_map v :
  ((Values v).1 = None
   <-> exists val w, v = Some val /\ resolve val = Some w
                     /\ Kind w ≠ reflect.Struct)
  /\ ((Values v).1 = None -> is_Some (Values v).2).
Proof.
  unfold Values. destruct v as [val|]; simpl.
  - destruct (resolve val) as [w|] eqn:Hr; simpl.
    + destruct (bool_decide (Kind w ≠ reflect.Struct)) eqn:Hk; simpl.
      * apply bool_decide_eq_true in Hk. split; [|by eexists].
        split; [|done]. intros _. by exists val, w.
      * apply bool_decide_eq_false in Hk.
        destruct (reflectValue ∅ w "") as [m err]. simpl.
        split; [|done]. split; [done|].
        intros (val' & w' & [= <-] & Hr' & Hk').
        rewrite Hr in Hr'. injection Hr' as <-. by destruct Hk.
    + split; [|done]. split; [done|].
      intros (val' & w' & [= <-] & Hr' & _). congruence.
  - split; [|done]. split; [done|]. by intros (val' & w' & H & _).
Qed.

(** ** What is already in the map *)

Lemma extends_refl (v : url.Values) : extends v v.
Proof. intros k. exists []. by rewrite app_nil_r. Qed.

Lemma extends_trans (v1 v2 v3 : url.Values) :
  extends v1 v2 -> extends v2 v3 -> extends v1 v3.
Proof.
  intros H12 H23 k. destruct (H12 k) as [l1 E1], (H23 k) as [l2 E2].
  exists (l1 ++ l2). by rewrite E2, E1, app_assoc.
Qed.

Lemma extends_Add key value (v : url.Values) : extends v (url.Add key value v).
Proof.
  intros k. unfold url.Add. destruct (decide (key = k)) as [->|Hne].
  - exists [value]. by rewrite lookup_total_insert_eq.
  - exists []. by rewrite lookup_total_insert_ne, app_nil_r.
Qed.

Lemma addLoop_extends name opts elems : forall i (values : url.Values),
  extends values (addLoop name opts elems i values).
Proof.
  induction elems as [|e rest IH]; intros i values; [apply extends_refl|].
  cbn [addLoop]. eapply extends_trans; [apply extends_Add|apply IH].
Qed.

Lemma encodeDefault_extends self name opts sv (values : url.Values) :
  (forall vs scope, extends vs (self vs (derefAll sv) scope).1) ->
  extends values (encodeDefault self name opts sv values).
Proof.
  intros Hself. unfold encodeDefault.
  repeat match goal with
    | |- context [if ?b then _ else _] => destruct b
    | |- context [let '(_, _) := ?x in _] => destruct x
    end; first [apply extends_Add | apply addLoop_extends | apply Hself].
Qed.

Lemma reflectField_extends self scope (values : url.Values) embedded sf sv :
  (forall m, Implements sf = Some m -> appending m) ->
  (forall vs sc, extends vs (self vs (derefAll sv) sc).1) ->
  match reflectField self scope values embedded sf sv with
  | Continue values' _ => extends values values'
  | Return values' _ => extends values values'
  end.
Proof.
  intros Henc Hself. unfold reflectField.
  destruct (bool_decide (PkgPath sf ≠ "") && negb (Anonymous sf));
    [apply extends_refl|].
  destruct (decide (Tag sf = "-")); [apply extends_refl|].
  destruct (parseTag (Tag sf)) as [name opts].
  destruct (bool_decide (name = "") && Anonymous sf
            && bool_decide (Kind sv = reflect.Struct)); [apply extends_refl|].
  destruct (Contains opts "omitempty" && isEmptyValue sv); [apply extends_refl|].
  destruct (Implements sf) as [m|].
  - specialize (Henc m eq_refl (fieldName scope sf name) values).
    by destruct (m (fieldName scope sf name) values) as [values' [err|]].
  - by apply encodeDefault_extends.
Qed.

Lemma fieldsLoop_extends self scope fields :
  Forall (fun f => (forall m, Implements f.1 = Some m -> appending m)
                   /\ forall vs sc, extends vs (self vs (derefAll f.2) sc).1)
    fields ->
  forall (values : url.Values) embedded,
  match fieldsLoop self scope fields values embedded with
  | Continue values' _ => extends values values'
  | Return values' _ => extends values values'
  end.
Proof.
  induction 1 as [|[sf sv] rest [Henc Hself] _ IH]; intros values embedded;
    [apply extends_refl|].
  cbn [fieldsLoop].
  pose proof (reflectField_extends self scope values embedded sf sv
                Henc Hself) as H1.
  destruct (reflectField self scope values embedded sf sv) as [v1 e1|]; [|done].
  specialize (IH v1 e1).
  destruct (fieldsLoop self scope rest v1 e1); by eapply extends_trans.
Qed.

Lemma embeddedLoop_extends self scope embedded :
  Forall (fun f => forall vs sc, extends vs (self vs f sc).1) embedded ->
  forall (values : url.Values),
  extends values (embeddedLoop self scope embedded values).1.
Proof.
  induction 1 as [|f rest Hf _ IH]; intros values; [apply extends_refl|].
  cbn [embeddedLoop]. specialize (Hf values scope).
  destruct (self values f scope) as [v1 [err|]]; simpl in Hf; [done|].
  eapply extends_trans; [exact Hf|apply IH].
Qed.

Lemma reflectValue_extends n : forall val,
  depth val < n -> encodersAll appending val ->
  forall values scope, extends values (reflectValue values val scope).1.
Proof.
  induction n as [|n IH]; intros val Hd Hval values scope; [lia|].
  rewrite reflectValue_unfold. unfold reflectValue_body.
  destruct val as [b|sz i|sz i|sz z text|s|kd elems|len text|p|p|fields|t|kd text];
    try apply extends_refl.
  cbn [Fields]. apply encodersAll_fields in Hval.
  pose proof (depth_Fields (VStruct fields)) as Hdf. cbn [Fields] in Hdf.
  assert (Hall : Forall (fun f =>
            (forall m, Implements f.1 = Some m -> appending m)
            /\ (forall vs sc, extends vs (reflectValue vs (derefAll f.2) sc).1)
            /\ (forall vs sc, extends vs (reflectValue vs f.2 sc).1)) fields).
  { apply Forall_forall. intros [sf sv] Hin.
    pose proof (proj1 (Forall_forall _ _) Hval _ Hin) as [Henc Hsv].
    pose proof (proj1 (Forall_forall _ _) Hdf _ Hin) as Hlt. simpl in *.
    split; [exact Henc|]. split; intros vs sc.
    - apply IH; [|by apply encodersAll_derefAll].
      pose proof (depth_derefAll sv). lia.
    - apply IH; [lia|done]. }
  pose proof (fieldsLoop_extends reflectValue scope fields) as Hloop.
  specialize (Hloop ltac:(eapply Forall_impl; [exact Hall|];
                          intros ? (? & ? & ?); done) values []).
  destruct (fieldsLoop reflectValue scope fields values []) as [v1 e1|] eqn:E;
    [|done].
  eapply extends_trans; [exact Hloop|]. apply embeddedLoop_extends.
  apply fieldsLoop_deferred in E.
  apply Forall_forall. intros f Hf. apply E in Hf.
  apply list_elem_of_fmap in Hf as [[sf sv] [-> Hin]].
  pose proof (proj1 (Forall_forall _ _) Hall _ Hin) as (_ & _ & H). exact H.
Qed.

(** X15: encoding only appends: when every custom encoder inside the
    value only appends, the map after encoding holds, under every key,
    the values it held before, in their order, followed by the new
    ones.  Nothing already in the map is removed or overwritten. *)
Theorem encoding_only_appends val values scope :
  encodersAll appending val ->
  extends values (reflectValue values val scope).1.
Proof. intros H. by apply (reflectValue_extends (S (depth val))); [lia|]. Qed.

Lemma encoding_only_appends_witness :
  let val := VStruct [(mkField "Query" "" false "q" None, VString "foo")] in
  encodersAll appending val
  /\ exists l, (reflectValue {["q" := ["old"]]} val "").1 !!! "q" = ["old"] ++ l.
Proof.
  intros val.
  assert (H : encodersAll appending val).
  { apply encodersAll_struct. constructor; [|constructor].
    split; [discriminate|]. by apply encodersAll_other. }
  split; [exact H|].
  exact (encoding_only_appends val {["q" := ["old"]]} "" H "q").
Defined.

(** ** Fields with the same name *)




(** ** Round trips *)

Lemma Split_no_occurrence sep : forall s,
  countByte sep s = 0 -> Split s sep = [s].
Proof.
  induction s as [|c rest IH]; [done|].
  cbn [countByte Split]. destruct (decide (c = sep)); [done|].
  intros H. by rewrite IH.
Qed.

Lemma Split_app_sep sep rest : forall x,
  countByte sep x = 0 ->
  Split (x +:+ String sep rest) sep = x :: Split rest sep.
Proof.
  induction x as [|c x IH]; intros H.
  - change ("" +:+ String sep rest) with (String sep rest).
    cbn [Split]. by rewrite decide_True.
  - change (String c x +:+ String sep rest)
      with (String c (x +:+ String sep rest)).
    cbn [countByte] in H. cbn [Split].
    destruct (decide (c = sep)); [done|]. by rewrite IH.
Qed.

Lemma Split_concat_inv sep : forall l,
  l ≠ [] -> Forall (fun x => countByte sep x = 0) l ->
  Split (String.concat (String sep "") l) sep = l.
Proof.
  induction l as [|x l IH]; intros Hne Hall; [done|].
  inversion Hall as [|? ? Hx Hl]; subst.
  destruct l as [|y l].
  - simpl. by apply Split_no_occurrence.
  - rewrite concat_cons_nonempty by done.
    change (String sep "" +:+ String.concat (String sep "") (y :: l))
      with (String sep (String.concat (String sep "") (y :: l))).
    rewrite Split_app_sep by done. by rewrite IH.
Qed.

(** X17: the parser recovers a name and options written out as a tag:
    when neither the name nor an option holds a comma, parsing the
    comma-separated tag gives them back. *)
Theorem parseTag_of_tag name opts :
  countByte ","%char name = 0 ->
  Forall (fun o => countByte ","%char o = 0) opts ->
  parseTag (String.concat "," (name :: opts)) = (name, opts).
Proof.
  intros Hn Ho. unfold parseTag.
  by rewrite (Split_concat_inv ","%char (name :: opts)); [|done|constructor].
Qed.

Lemma parseTag_of_tag_witness :
  countByte ","%char "page" = 0
  /\ Forall (fun o => countByte ","%char o = 0) ["omitempty"; "int"]
  /\ parseTag "page,omitempty,int" = ("page", ["omitempty"; "int"]).
Proof.
  assert (Ho : Forall (fun o => countByte ","%char o = 0) ["omitempty"; "int"])
    by (repeat constructor).
  split; [reflexivity|]. split; [exact Ho|].
  exact (parseTag_of_tag "page" ["omitempty"; "int"] eq_refl Ho).
Defined.

(** X18: a joined sequence can be taken apart again: for a slice or
    array field with a join option whose element strings do not hold the
    delimiter, splitting the single value at the delimiter gives the
    element strings back, in order. *)
Theorem joined_sequence_split del opts elems :
  elems ≠ [] ->
  Forall (fun e => countByte del (valueString e opts) = 0) elems ->
  Split (joinLoop del opts elems true "") del
  = map (fun e => valueString e opts) elems.
Proof.
  intros Hne Hall. rewrite joinLoop_concat. apply Split_concat_inv.
  - by destruct elems.
  - by apply Forall_fmap.
Qed.

Lemma joined_sequence_split_witness :
  let elems := [VString "a"; VInt reflect.I 7; VBool true] in
  elems ≠ []
  /\ Forall (fun e => countByte ","%char (valueString e []) = 0) elems
  /\ Split (joinLoop ","%char [] elems true "") ","%char = ["a"; "7"; "true"].
Proof.
  intros elems.
  assert (Hne : elems ≠ []) by discriminate.
  assert (Hall : Forall (fun e => countByte ","%char (valueString e []) = 0)
                   elems) by (repeat constructor).
  split; [exact Hne|]. split; [exact Hall|].
  exact (joined_sequence_split ","%char [] elems Hne Hall).
Defined.

(** ** Numbered sequences *)





